(** * cli-manager: extraction of files from a stack of image layers

    A shallow embedding of [pkg/image/extract.go] (function [Extract] and
    its option record) together with the properties of the natural-language
    specification that concern it.

    The Go code talks to three collaborators: the image (a list of layers,
    each of which opens a tar stream), the tar/gzip writer stacked on
    [opts.Destination], and [crane.Export].  Their answers are data of the
    model (a layer either opens or fails, a stream ends with [io.EOF] or
    with an error, a writer call succeeds or fails); the calls [Extract]
    makes are recorded in a trace so that "before any layer is read" and
    "aborts immediately" are statements about that trace. *)

From Stdlib Require Import String Ascii ZArith List Bool Lia.
From stdpp Require Import base decidable list gmap strings.
Import ListNotations.

Local Open Scope string_scope.
Local Open Scope list_scope.

(** ** Strings and paths *)

Module Paths.

Definition Separator : ascii := "/"%char.

Definition dot : list ascii := ["."%char].
Definition dotdot : list ascii := ["."%char; "."%char].

(** The elements of a path: the pieces between separators (some of them
    empty when separators are doubled, leading or trailing). *)
Fixpoint path_elements (p : list ascii) : list (list ascii) :=
  match p with
  | [] => [[]]
  | c :: p' =>
      if Ascii.eqb c Separator then [] :: path_elements p'
      else match path_elements p' with
           | [] => [[c]]
           | e :: es => (c :: e) :: es
           end
  end.

Fixpoint join (es : list (list ascii)) : list ascii :=
  match es with
  | [] => []
  | e :: es' =>
      match es' with
      | [] => e
      | _ :: _ => e ++ Separator :: join es'
      end
  end.

(** Whether a [..] element can remove the element written last: there is
    one, and it is not itself a [..] kept at the front of a relative
    path. *)
Definition can_backtrack (out : list (list ascii)) : bool :=
  match out with
  | [] => false
  | top :: _ => negb (bool_decide (top = dotdot))
  end.

(** One element of the input; [out] holds the elements kept so far, the
    last one first. *)
Definition clean_element (rooted : bool) (out : list (list ascii))
    (elem : list ascii) : list (list ascii) :=
  if bool_decide (elem = []) then out
  else if bool_decide (elem = dot) then out
  else if bool_decide (elem = dotdot) then
    if can_backtrack out then tail out
    else if negb rooted then dotdot :: out
    else out
  else elem :: out.

Definition is_rooted (p : list ascii) : bool :=
  match p with
  | c :: _ => Ascii.eqb c Separator
  | [] => false
  end.

Definition clean_list (p : list ascii) : list ascii :=
  let rooted := is_rooted p in
  let out := fold_left (clean_element rooted) (path_elements p) [] in
  let body := join (rev out) in
  if rooted then Separator :: body
  else match body with
       | [] => dot
       | _ :: _ => body
       end.

(** Modelled from the spec: [filepath.Clean] is Go library code, not part
    of the repository; the spec only says that it brings an entry name
    "to a canonical path form (collapse redundant separators/segments)".
    The model follows the rules the Go documentation gives for Unix
    paths: multiple separators become one, [.] elements disappear, an
    inner [..] disappears with the element before it, [..] at the start
    of a rooted path disappears, and the empty result is [.]. *)
Definition Clean (path : string) : string :=
  string_of_list_ascii (clean_list (list_ascii_of_string path)).

Fixpoint strip_prefix (prefix s : string) : option string :=
  match prefix with
  | EmptyString => Some s
  | String a prefix' =>
      match s with
      | EmptyString => None
      | String b s' => if Ascii.eqb a b then strip_prefix prefix' s' else None
      end
  end.

(** [strings.TrimPrefix]: [s] without the leading [prefix], or [s] itself
    when it does not start with [prefix]. *)
Definition TrimPrefix (s prefix : string) : string :=
  match strip_prefix prefix s with
  | Some rest => rest
  | None => s
  end.

End Paths.

Import Paths.

(** ** The collaborators *)

Inductive result (A : Type) : Type :=
| Ok (a : A)
| Err (err : string).
Arguments Ok {A} a.
Arguments Err {A} err.

(** [tar.Header], with the fields [Extract] reads and one ([Mode]) it only
    carries along.  [Typeflag] is a byte; [Size] is an [int64]. *)
Record Header : Type := mkHeader {
  Name : string;
  Typeflag : ascii;
  Size : Z;
  Mode : Z
}.

Definition TypeReg : ascii := "0"%char.
Definition TypeDir : ascii := "5"%char.

(** [header.Name = name] *)
Definition set_Name (header : Header) (name : string) : Header :=
  {| Name := name; Typeflag := Typeflag header;
     Size := Size header; Mode := Mode header |}.

(** One record of a layer's tar stream: what [tarReader.Next] returns and
    what reading [tarReader] then yields, with the error that reading may
    end in. *)
Record TarEntry : Type := mkEntry {
  header_of : Header;
  content : list Byte.byte;
  read_fault : option string
}.

(** The stream a layer opens: its entries, then [io.EOF] ([None]) or the
    error [tarReader.Next] ends with. *)
Record TarStream : Type := mkStream {
  entries : list TarEntry;
  broken : option string
}.

(** [v1.Layer]: [Uncompressed()] gives the stream or fails. *)
Record Layer : Type := mkLayer {
  Uncompressed : result TarStream
}.

(** [v1.Image]: [Layers()] gives the layers, oldest first, or fails. *)
Record Image : Type := mkImage {
  Layers : result (list Layer)
}.

(** The calls [Extract] makes to its collaborators: [crane.Export],
    [img.Layers], [layers[i].Uncompressed], [tarReader.Next],
    [tw.WriteHeader(header)], [io.Copy(tw, tarReader)] with the reader at
    entry [e], and the deferred closes. *)
Inductive Event : Type :=
| EvExport
| EvLayers
| EvUncompressed (i : nat)
| EvNext
| EvWriteHeader (header : Header)
| EvCopy (header : Header) (e : TarEntry)
| EvCloseLayer (i : nat)
| EvCloseTar
| EvCloseGzip.

(** An [io.Writer] as [Extract] sees it through the tar and gzip writers
    stacked on it: given the calls made so far (the last one first) and
    the call being made, [fault] is the error of that call, if any. *)
Record Writer : Type := mkWriter {
  fault : list Event -> Event -> option string
}.

Record ExtractOptions : Type := mkOptions {
  Tarball : option Writer;
  Targets : list string;
  Destination : Writer
}.

(** ** The state of one call *)

(** [processedTargets] is the Go map of that name (a set of names); [trace]
    holds the calls made so far, the last one first; [deferred] is the
    stack of [defer]red closes. *)
Record State : Type := mkState {
  processedTargets : gset string;
  trace : list Event;
  deferred : list Event
}.

Definition initial : State :=
  {| processedTargets := ∅; trace := []; deferred := [] |}.

Definition log (ev : Event) (s : State) : State :=
  {| processedTargets := processedTargets s;
     trace := ev :: trace s;
     deferred := deferred s |}.

Definition defer (ev : Event) (s : State) : State :=
  {| processedTargets := processedTargets s;
     trace := trace s;
     deferred := ev :: deferred s |}.

(** [processedTargets[name] = struct{}{}] *)
Definition mark (name : string) (s : State) : State :=
  {| processedTargets := {[name]} ∪ processedTargets s;
     trace := trace s;
     deferred := deferred s |}.

(** The deferred calls run when the function returns, the last deferred
    first; what they return is dropped. *)
Definition run_deferred (s : State) : State :=
  {| processedTargets := processedTargets s;
     trace := rev (deferred s) ++ trace s;
     deferred := [] |}.

(** ** Extract *)

(** [io.Copy(tw, tarReader)]: fails when reading the entry fails or when
    the writer does. *)
Definition io_Copy (tw : Writer) (before : list Event) (header : Header)
    (e : TarEntry) : option string :=
  match read_fault e with
  | Some err => Some err
  | None => fault tw before (EvCopy header e)
  end.

(** Lines 40-45: the first target already in the map, if any. *)
Fixpoint range_duplicates (ts : list string) (targets : gset string)
    : option string :=
  match ts with
  | [] => None
  | t :: ts' =>
      if bool_decide (t ∈ targets) then Some t
      else range_duplicates ts' ({[t]} ∪ targets)
  end.

(** Lines 107-115: the body of the [if] for a matching target.  The
    error is [None] at the [break]. *)
Definition write_entry (tw : Writer) (header : Header) (e : TarEntry)
    (s : State) : State * option string :=
  let s1 := mark (Name header) s in
  let s2 := log (EvWriteHeader header) s1 in
  match fault tw (trace s1) (EvWriteHeader header) with
  | Some err =>
      (s2, Some ("could not write tar header: " +:+ Name header
                 +:+ ", " +:+ err))
  | None =>
      let s3 := log (EvCopy header e) s2 in
      match io_Copy tw (trace s2) header e with
      | Some err =>
          (s3, Some ("could not copy " +:+ Name header +:+ ": " +:+ err))
      | None => (s3, None)
      end
  end.

(** Lines 105-117: [for _, target := range opts.Targets]. *)
Fixpoint range_targets (tw : Writer) (header : Header) (e : TarEntry)
    (targets : list string) (s : State) : State * option string :=
  match targets with
  | [] => (s, None)
  | target :: targets' =>
      if String.eqb (Name header) (TrimPrefix target "/") then
        write_entry tw header e s
      else range_targets tw header e targets' s
  end.

(** Lines 80-117: the body of the loop over the entries of a layer, for
    the entry [tarReader.Next] returned.  The error is [None] where the
    Go code goes on with the next entry. *)
Definition visit_entry (tw : Writer) (targets : list string) (e : TarEntry)
    (s : State) : State * option string :=
  let header := header_of e in
  if Ascii.eqb (Typeflag header) TypeDir then (s, None)
  else if (Size header =? 0)%Z then (s, None)
  else
    let header := set_Name header (Clean (Name header)) in
    if (String.length (Name header) =? 0)%nat then (s, None)
    else if bool_decide (Name header ∈ processedTargets s) then (s, None)
    else range_targets tw header e targets s.

(** Lines 71-118: the loop over the entries of one layer; [eof] is what
    [tarReader.Next] returns after the last entry, [None] for [io.EOF]. *)
Fixpoint read_entries (tw : Writer) (targets : list string)
    (es : list TarEntry) (eof : option string) (s : State)
    : State * option string :=
  let s0 := log EvNext s in
  match es with
  | [] =>
      match eof with
      | None => (s0, None)
      | Some err => (s0, Some ("reading tar: " +:+ err))
      end
  | e :: es' =>
      match visit_entry tw targets e s0 with
      | (s', Some err) => (s', Some err)
      | (s', None) => read_entries tw targets es' eof s'
      end
  end.

(** Lines 62-119: [for i := len(layers) - 1; i >= 0; i--].  The argument is
    the list of layers reversed, so that its head is [layers[i]] with [i]
    the length of its tail. *)
Fixpoint range_layers (tw : Writer) (targets : list string)
    (top_first : list Layer) (s : State) : State * option string :=
  match top_first with
  | [] => (s, None)
  | layer :: below =>
      let i := length below in
      let s1 := log (EvUncompressed i) s in
      match Uncompressed layer with
      | Err err => (s1, Some ("reading layer contents: " +:+ err))
      | Ok stream =>
          let s2 := defer (EvCloseLayer i) s1 in
          match read_entries tw targets (entries stream) (broken stream) s2 with
          | (s3, Some err) => (s3, Some err)
          | (s3, None) => range_layers tw targets below s3
          end
      end
  end.

Section Extract.

(** [crane.Export(img, w)], the whole-image export, is outside the
    repository. *)
Variable crane_Export : Image -> Writer -> option string.

Definition Extract (img : Image) (opts : ExtractOptions)
    : State * option string :=
  match Tarball opts with
  | Some w => (log EvExport initial, crane_Export img w)
  | None =>
      if (length (Targets opts) =? 0)%nat then
        (initial, Some "must provide at least one target")
      else
        match range_duplicates (Targets opts) ∅ with
        | Some t =>
            (initial, Some ("duplicate target source detected: " +:+ t))
        | None =>
            let s1 := log EvLayers initial in
            match Layers img with
            | Err err => (s1, Some ("retrieving image layers: " +:+ err))
            | Ok layers =>
                let s2 := defer EvCloseTar (defer EvCloseGzip s1) in
                let (s3, r) :=
                  range_layers (Destination opts) (Targets opts)
                               (rev layers) s2 in
                (run_deferred s3, r)
            end
        end
  end.

End Extract.

(** ** Vocabulary of the properties *)

(** An element that [Clean] keeps: not empty, not [.], without separator. *)
Definition kept (e : list ascii) : Prop :=
  e ≠ [] ∧ e ≠ dot ∧ Separator ∉ e.

(** The shape of a cleaned path: the root, [.], or kept elements joined
    by single separators, after a leading separator when rooted. *)
Inductive cleaned : list ascii → Prop :=
| cleaned_root : cleaned [Separator]
| cleaned_dot : cleaned dot
| cleaned_rooted es :
    es ≠ [] → Forall kept es → cleaned (Separator :: join es)
| cleaned_relative es :
    es ≠ [] → Forall kept es → cleaned (join es).

(** An element that is neither dropped nor a [..]. *)
Definition real (e : list ascii) : Prop := kept e ∧ e ≠ dotdot.

(** The elements [Clean] holds while it reads a path, the last one first:
    real elements on top of the [..] elements kept at the front, of which
    a rooted path has none. *)
Definition stacked (rooted : bool) (out : list (list ascii)) : Prop :=
  ∃ reals n, out = reals ++ replicate n dotdot
             ∧ Forall real reals ∧ (rooted = true → n = 0%nat).

(** The path a call to the tar writer is about. *)
Definition subject (ev : Event) : option string :=
  match ev with
  | EvWriteHeader header => Some (Name header)
  | EvCopy header _ => Some (Name header)
  | _ => None
  end.

(** The calls to the tar writer about path [p], the last one first. *)
Definition events_about (p : string) (tr : list Event) : list Event :=
  filter (λ ev, subject ev = Some p) tr.

(** The headers passed to [tw.WriteHeader], the last one first: the
    entries of the output archive. *)
Definition written (tr : list Event) : list Header :=
  omap (λ ev, match ev with EvWriteHeader header => Some header | _ => None end)
       tr.

(** The layers [Uncompressed] was called on, the last one first. *)
Definition opened (tr : list Event) : list nat :=
  omap (λ ev, match ev with EvUncompressed i => Some i | _ => None end) tr.

Definition is_close (ev : Event) : bool :=
  match ev with
  | EvCloseLayer _ | EvCloseTar | EvCloseGzip => true
  | _ => false
  end.

(** An entry the loop does not skip at lines 80-88: not a directory, not
    of size zero. *)
Definition live (header : Header) : bool :=
  negb (Ascii.eqb (Typeflag header) TypeDir) && negb (Size header =? 0)%Z.

(** Entry [e] carries content for path [p]. *)
Definition defines (p : string) (e : TarEntry) : bool :=
  live (header_of e) && String.eqb (Clean (Name (header_of e))) p.

Definition layer_defines (p : string) (l : Layer) : bool :=
  match Uncompressed l with
  | Ok stream => existsb (defines p) (entries stream)
  | Err _ => false
  end.

(** [name] is one of the targets, each with one leading [/] stripped. *)
Definition wanted (name : string) (targets : list string) : bool :=
  existsb (λ target, String.eqb name (TrimPrefix target "/")) targets.

(** No I/O failure: the layer opens, every entry can be read, the stream
    ends with [io.EOF]; the writer accepts every call. *)
Definition healthy_layer (l : Layer) : bool :=
  match Uncompressed l with
  | Ok stream =>
      match broken stream with
      | None => forallb (λ e, bool_decide (read_fault e = None)) (entries stream)
      | Some _ => false
      end
  | Err _ => false
  end.

Definition healthy_writer (w : Writer) : Prop :=
  ∀ before ev, fault w before ev = None.

(** Shapes of target strings that [Clean] never produces. *)
Definition dot_slash_prefixed (s : string) : Prop :=
  ∃ rest, s = "./" +:+ rest.

Definition doubled_separator (s : string) : Prop :=
  ∃ a b, s = a +:+ "//" +:+ b.

Definition trailing_separator (s : string) : Prop :=
  ∃ a, a ≠ "" ∧ s = a +:+ "/".

(** Every entry of the stream a layer opens satisfies [P]. *)
Definition layer_all (P : TarEntry → Prop) (l : Layer) : Prop :=
  ∀ stream, Uncompressed l = Ok stream → Forall P (entries stream).

Definition absent (p : string) (e : TarEntry) : Prop := defines p e = false.

(** A path already processed stays processed and nothing more is written
    about it. *)
Definition shadowed (p : string) (s s' : State) : Prop :=
  p ∈ processedTargets s →
  (p ∈ processedTargets s')
  ∧ events_about p (trace s') = events_about p (trace s).

(** A path not processed and not defined by the entries read stays so. *)
Definition untouched (p : string) (s s' : State) : Prop :=
  p ∉ processedTargets s →
  (p ∉ processedTargets s')
  ∧ events_about p (trace s') = events_about p (trace s).

(** The entries written so far have distinct names, each processed, each
    a target with its leading separator stripped and a result of [Clean]. *)
Definition archive_ok (targets : list string) (s : State) : Prop :=
  NoDup (fmap Name (written (trace s)))
  ∧ (∀ header, header ∈ written (trace s) →
      (Name header ∈ processedTargets s)
      ∧ wanted (Name header) targets = true
      ∧ ∃ raw, Name header = Clean raw).

(** Only closes are deferred. *)
Definition closes_only (s : State) : Prop :=
  forallb is_close (deferred s) = true.

(** The stream being read after the calls [before]: that of the layer
    opened last. *)
Definition current_stream (img : Image) (before : list Event)
    : option TarStream :=
  match Layers img, head (opened before) with
  | Ok layers, Some i =>
      match layers !! i with
      | Some l =>
          match Uncompressed l with
          | Ok stream => Some stream
          | Err _ => None
          end
      | None => None
      end
  | _, _ => None
  end.

(** The number of calls to [tarReader.Next] since the last layer was
    opened. *)
Fixpoint nexts_since_open (tr : list Event) : nat :=
  match tr with
  | [] => 0
  | EvUncompressed _ :: _ => 0
  | EvNext :: tr' => S (nexts_since_open tr')
  | _ :: tr' => nexts_since_open tr'
  end.

(** The error a call fails with, given the calls made before it.  What
    the deferred closes return is dropped by [Extract] and has no place
    here. *)
Definition call_fault (img : Image) (tw : Writer) (before : list Event)
    (ev : Event) : option string :=
  match ev with
  | EvLayers =>
      match Layers img with
      | Err cause => Some cause
      | Ok _ => None
      end
  | EvUncompressed i =>
      match Layers img with
      | Ok layers =>
          match layers !! i with
          | Some l =>
              match Uncompressed l with
              | Err cause => Some cause
              | Ok _ => None
              end
          | None => None
          end
      | Err _ => None
      end
  | EvNext =>
      match current_stream img before with
      | Some stream =>
          if (nexts_since_open before =? length (entries stream))%nat
          then broken stream else None
      | None => None
      end
  | EvWriteHeader header => fault tw before ev
  | EvCopy header e => io_Copy tw before header e
  | _ => None
  end.

(** The error [Extract] returns when call [ev] fails with [cause]. *)
Definition wrap (ev : Event) (cause : string) : string :=
  match ev with
  | EvLayers => "retrieving image layers: " +:+ cause
  | EvUncompressed _ => "reading layer contents: " +:+ cause
  | EvNext => "reading tar: " +:+ cause
  | EvWriteHeader header =>
      "could not write tar header: " +:+ Name header +:+ ", " +:+ cause
  | EvCopy header _ => "could not copy " +:+ Name header +:+ ": " +:+ cause
  | _ => cause
  end.

(** A call that refers to something there is: the layer opened exists,
    the stream read is that of an opened layer. *)
Definition call_placed (img : Image) (before : list Event) (ev : Event)
    : Prop :=
  match ev with
  | EvUncompressed i =>
      ∃ layers l, Layers img = Ok layers ∧ layers !! i = Some l
  | EvNext =>
      ∃ stream, current_stream img before = Some stream
                ∧ (nexts_since_open before ≤ length (entries stream))%nat
  | _ => True
  end.

(** Every call of the trace was well placed and did not fail. *)
Fixpoint calls_ok (img : Image) (tw : Writer) (tr : list Event) : Prop :=
  match tr with
  | [] => True
  | ev :: before =>
      call_placed img before ev ∧ call_fault img tw before ev = None
      ∧ calls_ok img tw before
  end.

(** The calls [tr] end with a call that failed, all calls before it
    having succeeded, and [err] is the error of that call, wrapped. *)
Definition aborted (img : Image) (tw : Writer) (tr : list Event)
    (err : string) : Prop :=
  ∃ ev before cause,
    tr = ev :: before
    ∧ call_placed img before ev
    ∧ call_fault img tw before ev = Some cause
    ∧ err = wrap ev cause
    ∧ calls_ok img tw before.

(** What a pass returns agrees with the calls it made. *)
Definition outcome (img : Image) (tw : Writer) (tr : list Event)
    (r : option string) : Prop :=
  match r with
  | None => calls_ok img tw tr
  | Some err => aborted img tw tr err
  end.

(** The state in which the loop over the layers starts: [img.Layers] has
    been called and the closes of the two writers are deferred. *)
Definition scanning : State :=
  defer EvCloseTar (defer EvCloseGzip (log EvLayers initial)).

(** ** Sample images and options *)

(** A regular file [name] with content [body]. *)
Definition file (name body : string) : TarEntry :=
  {| header_of := {| Name := name; Typeflag := TypeReg;
                     Size := Z.of_nat (String.length body); Mode := 420 |};
     content := list_byte_of_string body;
     read_fault := None |}.

Definition layer_of (es : list TarEntry) : Layer :=
  {| Uncompressed := Ok {| entries := es; broken := None |} |}.

Definition failing_layer (cause : string) : Layer :=
  {| Uncompressed := Err cause |}.

Definition accepting : Writer := {| fault := λ _ _, None |}.

Definition no_export : Image → Writer → option string := λ _ _, None.

Definition options_for (targets : list string) : ExtractOptions :=
  {| Tarball := None; Targets := targets; Destination := accepting |}.

(** The stack of the spec's scenario: [x] in both layers, [y] in the most
    recent one only. *)
Definition two_layers : Image :=
  {| Layers := Ok [layer_of [file "x" "old"];
                   layer_of [file "x" "new"; file "y" "data"]] |}.

(** [x] in the lower layer, its whiteout marker in the upper one. *)
Definition whiteout_image : Image :=
  {| Layers := Ok [layer_of [file "x" "old"]; layer_of [file ".wh.x" ""]] |}.

(** A layer whose entry is named [./a/b]. *)
Definition dotted_image : Image :=
  {| Layers := Ok [layer_of [file "./a/b" "tool"]] |}.

(** A layer whose entry has an absolute name. *)
Definition absolute_image : Image :=
  {| Layers := Ok [layer_of [file "/a/b" "abs"]] |}.

(** The same failure to open a layer, at the top and at the bottom. *)
Definition broken_top : Image :=
  {| Layers := Ok [layer_of []; failing_layer "unexpected EOF"] |}.

Definition broken_bottom : Image :=
  {| Layers := Ok [failing_layer "unexpected EOF"; layer_of []] |}.

(** ** Vocabulary of the further properties *)

(** Entry [e] is in the stream of a layer of the image. *)
Definition in_image (img : Image) (e : TarEntry) : Prop :=
  ∃ layers l stream,
    Layers img = Ok layers ∧ l ∈ layers ∧ Uncompressed l = Ok stream
    ∧ e ∈ entries stream.

(** The header [Extract] writes for entry [e]: that of [e] under its
    cleaned name (line 92). *)
Definition cleaned_header (e : TarEntry) : Header :=
  set_Name (header_of e) (Clean (Name (header_of e))).

(** A call to the tar writer that is made for a live entry of the image,
    with the cleaned header of that entry. *)
Definition from_image (img : Image) (ev : Event) : Prop :=
  match ev with
  | EvWriteHeader header =>
      ∃ e, in_image img e ∧ live (header_of e) = true
           ∧ header = cleaned_header e
  | EvCopy header e =>
      in_image img e ∧ live (header_of e) = true ∧ header = cleaned_header e
  | _ => True
  end.

(** The headers and contents given to [io.Copy], the last one first. *)
Definition archive (tr : list Event) : list (Header * list Byte.byte) :=
  omap (λ ev, match ev with
              | EvCopy header e => Some (header, content e)
              | _ => None
              end) tr.

(** The names the targets stand for. *)
Definition trimmed (targets : list string) : list string :=
  fmap (λ target, TrimPrefix target "/") targets.

(** Every processed name is the name of a header given to the writer. *)
Definition processed_written (s : State) : Prop :=
  ∀ p, p ∈ processedTargets s →
       ∃ header, header ∈ written (trace s) ∧ Name header = p.

(** The calls to the layers and their readers. *)
Definition is_read (ev : Event) : bool :=
  match ev with
  | EvUncompressed _ | EvNext => true
  | _ => false
  end.

Definition reads (tr : list Event) : list Event :=
  filter (λ ev, is_read ev = true) tr.

Definition stream_length (l : Layer) : nat :=
  match Uncompressed l with
  | Ok stream => length (entries stream)
  | Err _ => 0
  end.

(** Opening each layer of the list in turn, the head of the list first
    and numbered as in [range_layers], and calling [tarReader.Next] once
    per entry and once more for [io.EOF]; in the order of the calls. *)
Fixpoint drained (top_first : list Layer) : list Event :=
  match top_first with
  | [] => []
  | l :: below =>
      EvUncompressed (length below)
      :: replicate (S (stream_length l)) EvNext ++ drained below
  end.

(** Layer [i] exists and opens. *)
Definition opens (layers : list Layer) (i : nat) : bool :=
  match layers !! i with
  | Some l =>
      match Uncompressed l with
      | Ok _ => true
      | Err _ => false
      end
  | None => false
  end.

(** The closes deferred so far are those of the layers that opened, the
    last opened first, on top of those of the two writers. *)
Definition closes_pending (layers : list Layer) (s : State) : Prop :=
  deferred s
  = (EvCloseLayer <$> filter (λ i, opens layers i = true) (opened (trace s)))
    ++ [EvCloseTar; EvCloseGzip]
  ∧ forallb (λ ev, negb (is_close ev)) (trace s) = true.

(** The entries of the stream a layer opens, none when it does not open. *)
Definition stream_entries (l : Layer) : list TarEntry :=
  match Uncompressed l with
  | Ok stream => entries stream
  | Err _ => []
  end.

(** The entries a pass over the layers meets, in the order it meets them:
    layer after layer from the head of the list, each in stream order. *)
Definition scanned (top_first : list Layer) : list TarEntry :=
  concat (stream_entries <$> top_first).

(** Of the entries [es], in their order, those that are live, have the
    name of a target once cleaned, and are the first with that name, the
    names in [seen] counting as met before. *)
Fixpoint selected (targets : list string) (seen : gset string)
    (es : list TarEntry) : list TarEntry :=
  match es with
  | [] => []
  | e :: es' =>
      let name := Clean (Name (header_of e)) in
      if live (header_of e) && negb (bool_decide (name ∈ seen))
         && wanted name targets
      then e :: selected targets ({[name]} ∪ seen) es'
      else selected targets seen es'
  end.

(** What the archive holds for an entry: its cleaned header and its
    content. *)
Definition archived (e : TarEntry) : Header * list Byte.byte :=
  (cleaned_header e, content e).

(** ** Facts about paths *)

Lemma path_elements_nonempty p : path_elements p ≠ [].
Proof.
  destruct p as [|c p]; simpl; [done|].
  destruct (Ascii.eqb c Separator); [done|].
  destruct (path_elements p); done.
Qed.

Lemma path_elements_no_sep p : Forall (λ e, Separator ∉ e) (path_elements p).
Proof.
  induction p as [|c p IH]; simpl.
  - constructor; [|constructor]. apply not_elem_of_nil.
  - destruct (Ascii.eqb_spec c Separator) as [->|Hc].
    + constructor; [apply not_elem_of_nil | exact IH].
    + destruct (path_elements p) as [|e es].
      * constructor; [|constructor]. rewrite list_elem_of_singleton. congruence.
      * inversion IH; subst. constructor; [|assumption].
        rewrite elem_of_cons. intros [?|?]; [congruence|contradiction].
Qed.

(** Splitting distributes over a separator. *)
Lemma path_elements_app_sep a b :
  path_elements (a ++ Separator :: b) = path_elements a ++ path_elements b.
Proof.
  induction a as [|c a IH]; simpl.
  - reflexivity.
  - destruct (Ascii.eqb c Separator).
    + by rewrite IH.
    + rewrite IH. pose proof (path_elements_nonempty a).
      destruct (path_elements a); [done|reflexivity].
Qed.

Lemma path_elements_plain e : Separator ∉ e → path_elements e = [e].
Proof.
  induction e as [|c e IH]; simpl; intros H; [reflexivity|].
  apply not_elem_of_cons in H as [Hc He].
  destruct (Ascii.eqb_spec c Separator); [congruence|].
  by rewrite IH.
Qed.

(** Splitting undoes joining. *)
Lemma path_elements_join es :
  es ≠ [] → Forall (λ e, Separator ∉ e) es → path_elements (join es) = es.
Proof.
  induction es as [|e es IH]; [done|]. intros _ H.
  inversion H as [|? ? He Hes]; subst.
  destruct es as [|e' es'].
  - simpl. by apply path_elements_plain.
  - change (join (e :: e' :: es')) with (e ++ Separator :: join (e' :: es')).
    rewrite path_elements_app_sep, IH by done.
    by rewrite path_elements_plain.
Qed.

Lemma kept_dotdot : kept dotdot.
Proof.
  repeat split; try done. unfold dotdot, Separator.
  rewrite !not_elem_of_cons. repeat split; try done. apply not_elem_of_nil.
Qed.

Lemma clean_element_kept rooted out elem :
  Forall kept out → Separator ∉ elem →
  Forall kept (clean_element rooted out elem).
Proof.
  intros Hout Hel. unfold clean_element.
  repeat case_bool_decide; try done.
  - destruct (can_backtrack out).
    + destruct out; [done|]. by inversion Hout.
    + destruct rooted; simpl; [done|]. constructor; [apply kept_dotdot|done].
  - constructor; [|done]. by repeat split.
Qed.

Lemma clean_fold_kept rooted es out :
  Forall kept out → Forall (λ e, Separator ∉ e) es →
  Forall kept (fold_left (clean_element rooted) es out).
Proof.
  revert out. induction es as [|e es IH]; simpl; intros out Hout Hes; [done|].
  inversion Hes; subst. apply IH; [|done]. by apply clean_element_kept.
Qed.

Lemma join_nil_inv es : Forall kept es → join es = [] → es = [].
Proof.
  destruct es as [|e es]; [done|]. intros H.
  inversion H as [|? ? [He _] _]; subst.
  simpl. destruct es; [done|]. destruct e; done.
Qed.

Lemma clean_list_cleaned p : cleaned (clean_list p).
Proof.
  unfold clean_list.
  set (out := fold_left _ _ _).
  assert (Hk : Forall kept (rev out)).
  { apply Forall_rev, clean_fold_kept; [constructor | apply path_elements_no_sep]. }
  destruct (rev out) as [|e es] eqn:E.
  - simpl. destruct (is_rooted p); constructor.
  - destruct (is_rooted p).
    + by apply cleaned_rooted.
    + destruct (join (e :: es)) eqn:J.
      * by apply join_nil_inv in J.
      * rewrite <- J. by apply cleaned_relative.
Qed.

Lemma kept_no_sep es : Forall kept es → Forall (λ e, Separator ∉ e) es.
Proof. intros H. eapply Forall_impl; [exact H|]. by intros ? (_ & _ & ?). Qed.

Lemma kept_not_nil es : Forall kept es → [] ∉ es.
Proof. rewrite Forall_forall. intros H Hin. by destruct (H _ Hin) as [? _]. Qed.

Lemma kept_not_dot es : Forall kept es → dot ∉ es.
Proof.
  rewrite Forall_forall. intros H Hin. by destruct (H _ Hin) as (_ & ? & _).
Qed.

(** The elements of a cleaned path. *)
Lemma cleaned_elements l :
  cleaned l →
  l = [Separator] ∨ l = dot ∨
  ∃ es, Forall kept es ∧ (path_elements l = es ∨ path_elements l = [] :: es).
Proof.
  intros [| |es Hne Hk|es Hne Hk]; [by left | by right; left | |]; right; right;
    exists es; (split; [done|]).
  - right. change (Separator :: join es) with ([] ++ Separator :: join es).
    rewrite path_elements_app_sep. simpl. f_equal.
    by apply path_elements_join, kept_no_sep.
  - left. by apply path_elements_join, kept_no_sep.
Qed.

Lemma cleaned_nonempty l : cleaned l → l ≠ [].
Proof.
  intros [| |es Hne Hk|es Hne Hk]; try done.
  intros J. by apply join_nil_inv in J.
Qed.

Lemma cleaned_no_dot_slash l r : cleaned l → l ≠ "."%char :: Separator :: r.
Proof.
  intros Hl ->. apply cleaned_elements in Hl as [H|[H|(es & Hk & H)]];
    try discriminate.
  change ("."%char :: Separator :: r) with (dot ++ Separator :: r) in H.
  rewrite path_elements_app_sep in H. simpl in H.
  apply kept_not_dot in Hk as Hd.
  destruct H as [<-|H]; [apply Hd; left|].
  discriminate.
Qed.

Lemma cleaned_no_double l a b :
  cleaned l → l ≠ a ++ Separator :: Separator :: b.
Proof.
  intros Hl ->. apply cleaned_elements in Hl as [H|[H|(es & Hk & H)]].
  - apply (f_equal length) in H. rewrite length_app in H. simpl in H. lia.
  - apply (f_equal length) in H. rewrite length_app in H. simpl in H. lia.
  - rewrite path_elements_app_sep in H. simpl in H.
    apply kept_not_nil in Hk as Hn. apply Hn.
    destruct H as [<-|H].
    + apply elem_of_app. right. left.
    + pose proof (path_elements_nonempty a).
      destruct (path_elements a) as [|x xs]; [done|].
      simpl in H. injection H as _ <-. apply elem_of_app. right. left.
Qed.

Lemma cleaned_no_trailing l a : cleaned l → l = a ++ [Separator] → a = [].
Proof.
  intros Hl ->. apply cleaned_elements in Hl as [H|[H|(es & Hk & H)]].
  - destruct a as [|? [|]]; done.
  - destruct a as [|? [|]]; done.
  - rewrite path_elements_app_sep in H. simpl in H.
    apply kept_not_nil in Hk as Hn. exfalso. apply Hn.
    destruct H as [<-|H].
    + apply elem_of_app. right. left.
    + pose proof (path_elements_nonempty a).
      destruct (path_elements a) as [|x xs]; [done|].
      simpl in H. injection H as _ <-. apply elem_of_app. right. left.
Qed.

Lemma list_ascii_of_string_app a b :
  list_ascii_of_string (a +:+ b)
  = list_ascii_of_string a ++ list_ascii_of_string b.
Proof. induction a as [|c a IH]; simpl; [done|]. by rewrite IH. Qed.

Lemma Clean_cleaned s : cleaned (list_ascii_of_string (Clean s)).
Proof.
  unfold Clean. rewrite list_ascii_of_string_of_list_ascii.
  apply clean_list_cleaned.
Qed.

(** [Clean] never returns the empty string: the test at line 95 of
    [Extract] never succeeds. *)
Lemma Clean_nonempty s : Clean s ≠ "".
Proof.
  intros H. apply (cleaned_nonempty _ (Clean_cleaned s)). by rewrite H.
Qed.

Lemma Clean_no_dot_slash s : ¬ dot_slash_prefixed (Clean s).
Proof.
  intros [r H]. apply (cleaned_no_dot_slash _ (list_ascii_of_string r)
                         (Clean_cleaned s)).
  by rewrite H.
Qed.

Lemma Clean_no_double s : ¬ doubled_separator (Clean s).
Proof.
  intros (a & b & H).
  apply (cleaned_no_double _ (list_ascii_of_string a) (list_ascii_of_string b)
           (Clean_cleaned s)).
  rewrite H, list_ascii_of_string_app. reflexivity.
Qed.

Lemma Clean_no_trailing s : ¬ trailing_separator (Clean s).
Proof.
  intros (a & Ha & H). apply Ha.
  assert (E : list_ascii_of_string a = []).
  { apply (cleaned_no_trailing _ _ (Clean_cleaned s)).
    rewrite H, list_ascii_of_string_app. reflexivity. }
  by destruct a.
Qed.

(** The model of [Clean] on paths of the kinds the Go documentation and
    tests list. *)
Lemma Clean_examples :
  Clean "" = "." ∧ Clean "abc" = "abc" ∧ Clean "./a/b" = "a/b"
  ∧ Clean "abc/" = "abc" ∧ Clean "abc//def//ghi" = "abc/def/ghi"
  ∧ Clean "//abc//" = "/abc" ∧ Clean "abc/./def" = "abc/def"
  ∧ Clean "abc/def/../ghi/../jkl" = "abc/jkl" ∧ Clean "abc/def/../.." = "."
  ∧ Clean "/abc/def/../../.." = "/" ∧ Clean "abc/def/../../.." = ".."
  ∧ Clean "abc/def/../../../ghi/jkl/../../../mno" = "../../mno"
  ∧ Clean "/../abc" = "/abc" ∧ Clean "abc/../../././../def" = "../../def"
  ∧ Clean "/" = "/" ∧ Clean "a/.wh.b" = "a/.wh.b".
Proof. vm_compute. repeat split. Qed.

Lemma TrimPrefix_examples :
  TrimPrefix "/a/b" "/" = "a/b" ∧ TrimPrefix "a/b" "/" = "a/b"
  ∧ TrimPrefix "//a/b" "/" = "/a/b" ∧ TrimPrefix "/" "/" = ""
  ∧ TrimPrefix "" "/" = "".
Proof. repeat split. Qed.

Lemma clean_element_real rooted out elem :
  real elem → clean_element rooted out elem = elem :: out.
Proof.
  intros [(Hn & Hd & _) Hdd]. unfold clean_element.
  by rewrite !bool_decide_eq_false_2.
Qed.

Lemma clean_fold_reals rooted rs out :
  Forall real rs → fold_left (clean_element rooted) rs out = rev rs ++ out.
Proof.
  revert out. induction rs as [|e rs IH]; intros out H; cbn [fold_left rev];
    [done|].
  inversion H; subst. rewrite clean_element_real by done.
  rewrite IH by done. by rewrite <- app_assoc.
Qed.

Lemma can_backtrack_dotdots n : can_backtrack (replicate n dotdot) = false.
Proof. destruct n; [done|]. cbn. by rewrite bool_decide_eq_true_2. Qed.

Lemma clean_fold_dotdots n m :
  fold_left (clean_element false) (replicate n dotdot) (replicate m dotdot)
  = replicate (n + m) dotdot.
Proof.
  revert m. induction n as [|n IH]; intros m; cbn [replicate fold_left]; [done|].
  unfold clean_element at 2.
  rewrite bool_decide_eq_false_2, bool_decide_eq_false_2,
    bool_decide_eq_true_2, can_backtrack_dotdots by done.
  cbn [negb]. change (dotdot :: replicate m dotdot)
    with (replicate (S m) dotdot).
  rewrite IH. f_equal. lia.
Qed.

Lemma clean_element_stacked rooted out elem :
  stacked rooted out → Separator ∉ elem →
  stacked rooted (clean_element rooted out elem).
Proof.
  intros (reals & n & -> & Hr & Hn) Hsep. unfold clean_element.
  case_bool_decide as E1; [by exists reals, n|].
  case_bool_decide as E2; [by exists reals, n|].
  case_bool_decide as E3.
  - destruct reals as [|top reals].
    + cbn [app]. rewrite can_backtrack_dotdots.
      destruct rooted; cbn [negb].
      * by exists [], n.
      * exists [], (S n). repeat split; [done | done].
    + inversion Hr as [|? ? [_ Htop] Hrs]; subst. cbn [app can_backtrack].
      rewrite bool_decide_eq_false_2 by done. cbn [negb tail].
      by exists reals, n.
  - exists (elem :: reals), n. repeat split; try done.
    constructor; [|done]. by repeat split.
Qed.

Lemma clean_fold_stacked rooted es out :
  stacked rooted out → Forall (λ e, Separator ∉ e) es →
  stacked rooted (fold_left (clean_element rooted) es out).
Proof.
  revert out. induction es as [|e es IH]; intros out Hout Hes; cbn; [done|].
  inversion Hes; subst. apply IH; [|done]. by apply clean_element_stacked.
Qed.

Lemma rev_replicate {A} n (x : A) : rev (replicate n x) = replicate n x.
Proof.
  induction n as [|n IH]; cbn; [done|].
  by rewrite IH, <- replicate_cons_app.
Qed.

Lemma real_kept es : Forall real es → Forall kept es.
Proof. intros H. eapply Forall_impl; [exact H|]. by intros ? [? _]. Qed.

Lemma is_rooted_join es :
  Forall kept es → is_rooted (join es) = false.
Proof.
  destruct es as [|e es]; [done|]. intros H.
  inversion H as [|? ? (Hne & _ & Hsep) _]; subst.
  destruct e as [|c e]; [done|].
  assert (Hc : c ≠ Separator).
  { intros ->. apply Hsep. left. }
  cbn. destruct es; cbn; by apply Ascii.eqb_neq.
Qed.

(** What [clean_list] returns, in terms of the elements it kept. *)
Lemma clean_list_form p :
  ∃ n rs,
    Forall real rs ∧ (is_rooted p = true → n = 0%nat)
    ∧ clean_list p
      = if is_rooted p then Separator :: join (replicate n dotdot ++ rs)
        else match join (replicate n dotdot ++ rs) with
             | [] => dot
             | _ :: _ => join (replicate n dotdot ++ rs)
             end.
Proof.
  unfold clean_list.
  destruct (clean_fold_stacked (is_rooted p) (path_elements p) [])
    as (reals & n & -> & Hr & Hn).
  { exists [], 0%nat. by repeat split. }
  { apply path_elements_no_sep. }
  exists n, (rev reals). rewrite rev_app_distr, rev_replicate.
  repeat split; [by apply Forall_rev | done].
Qed.

(** Cleaning a cleaned path changes nothing. *)
Lemma clean_list_idempotent p : clean_list (clean_list p) = clean_list p.
Proof.
  destruct (clean_list_form p) as (n & rs & Hrs & Hn & ->).
  assert (Hk : Forall kept (replicate n dotdot ++ rs)).
  { apply Forall_app. split; [|by apply real_kept].
    apply Forall_replicate, kept_dotdot. }
  destruct (is_rooted p) eqn:R.
  - rewrite Hn by done. cbn [replicate app]. unfold clean_list.
    cbn [is_rooted path_elements]. rewrite Ascii.eqb_refl.
    destruct rs as [|r rs'] eqn:Ers.
    + reflexivity.
    + rewrite path_elements_join; [|done|by apply kept_no_sep, real_kept].
      change (fold_left (clean_element true) ([] :: r :: rs') [])
        with (fold_left (clean_element true) (r :: rs') []).
      rewrite clean_fold_reals by done.
      by rewrite app_nil_r, rev_involutive.
  - destruct (join (replicate n dotdot ++ rs)) as [|c body] eqn:J.
    + reflexivity.
    + rewrite <- J. unfold clean_list.
      rewrite is_rooted_join by done.
      assert (Hne : replicate n dotdot ++ rs ≠ []).
      { intros E. by rewrite E in J. }
      rewrite path_elements_join; [|done|by apply kept_no_sep].
      rewrite fold_left_app.
      change (fold_left (clean_element false) (replicate n dotdot) [])
        with (fold_left (clean_element false) (replicate n dotdot)
                (replicate 0 dotdot)).
      rewrite clean_fold_dotdots, Nat.add_0_r, clean_fold_reals by done.
      rewrite rev_app_distr, rev_involutive, rev_replicate.
      by rewrite J.
Qed.

Lemma Clean_idempotent s : Clean (Clean s) = Clean s.
Proof.
  unfold Clean. rewrite list_ascii_of_string_of_list_ascii.
  by rewrite clean_list_idempotent.
Qed.

(** ** Facts about one entry *)

Lemma events_about_cons_same p ev tr :
  subject ev = Some p → events_about p (ev :: tr) = ev :: events_about p tr.
Proof. intros H. unfold events_about. by rewrite filter_cons_True. Qed.

Lemma events_about_cons_other p ev tr :
  subject ev ≠ Some p → events_about p (ev :: tr) = events_about p tr.
Proof. intros H. unfold events_about. by rewrite filter_cons_False. Qed.

Lemma events_about_app p tr1 tr2 :
  events_about p (tr1 ++ tr2) = events_about p tr1 ++ events_about p tr2.
Proof. apply filter_app. Qed.

Lemma events_about_closes p tr :
  forallb is_close tr = true → events_about p tr = [].
Proof.
  induction tr as [|ev tr IH]; simpl; [done|].
  intros [Hev Htr]%andb_true_iff.
  rewrite events_about_cons_other; [by apply IH|].
  by destruct ev.
Qed.

Lemma range_targets_wanted tw header e targets s :
  range_targets tw header e targets s
  = if wanted (Name header) targets then write_entry tw header e s
    else (s, None).
Proof.
  induction targets as [|t ts IH]; simpl; [done|].
  by destruct (String.eqb (Name header) (TrimPrefix t "/")).
Qed.

(** The loop body in one test: the entry is written when it is live, its
    cleaned name is not processed yet and is the name of a target. *)
Lemma visit_entry_unfold tw targets e s :
  visit_entry tw targets e s
  = let header := set_Name (header_of e) (Clean (Name (header_of e))) in
    if live (header_of e)
       && negb (bool_decide (Name header ∈ processedTargets s))
       && wanted (Name header) targets
    then write_entry tw header e s
    else (s, None).
Proof.
  unfold visit_entry, live.
  destruct (Ascii.eqb (Typeflag (header_of e)) TypeDir); [done|].
  destruct (Size (header_of e) =? 0)%Z; [done|].
  cbn [negb andb set_Name Name].
  pose proof (Clean_nonempty (Name (header_of e))) as Hne.
  destruct (Clean (Name (header_of e))) as [|c rest] eqn:E; [done|].
  cbn [String.length Nat.eqb].
  case_bool_decide; cbn [negb andb]; [done|].
  rewrite range_targets_wanted. reflexivity.
Qed.

(** Directories and entries of size zero are skipped whatever their name:
    a whiteout marker, an empty file named [.wh.name], leaves no trace. *)
Lemma visit_entry_skipped tw targets e s :
  Typeflag (header_of e) = TypeDir ∨ Size (header_of e) = 0%Z →
  visit_entry tw targets e s = (s, None).
Proof.
  intros H. rewrite visit_entry_unfold. cbn zeta. unfold live.
  destruct H as [-> | ->]; [done|].
  by rewrite andb_false_r.
Qed.

Lemma write_entry_effect tw header e s s' r :
  write_entry tw header e s = (s', r) →
  processedTargets s' = {[Name header]} ∪ processedTargets s
  ∧ deferred s' = deferred s
  ∧ (trace s' = EvWriteHeader header :: trace s
     ∨ trace s' = EvCopy header e :: EvWriteHeader header :: trace s)
  ∧ (r = None →
     trace s' = EvCopy header e :: EvWriteHeader header :: trace s).
Proof.
  unfold write_entry. cbn [mark log trace].
  destruct (fault tw (trace s) (EvWriteHeader header)).
  - intros [= <- <-]. cbn. repeat split; [by left | done].
  - destruct (io_Copy tw _ header e); intros [= <- <-]; cbn;
      repeat split; try (by right); done.
Qed.

Lemma write_entry_other tw header e s s' r p :
  write_entry tw header e s = (s', r) → p ≠ Name header →
  (p ∈ processedTargets s' ↔ p ∈ processedTargets s)
  ∧ events_about p (trace s') = events_about p (trace s).
Proof.
  intros H Hp. apply write_entry_effect in H as (Hpr & _ & Htr & _).
  split.
  { rewrite Hpr, elem_of_union, elem_of_singleton.
    split; [intros [?|?]; done | by right]. }
  destruct Htr as [-> | ->];
    rewrite ?events_about_cons_other; try done; cbn; congruence.
Qed.

Lemma write_entry_written tw header e s s' r :
  write_entry tw header e s = (s', r) →
  written (trace s') = header :: written (trace s).
Proof.
  intros H. apply write_entry_effect in H as (_ & _ & Htr & _).
  by destruct Htr as [-> | ->].
Qed.

Lemma absent_neq p e :
  absent p e → live (header_of e) = true → p ≠ Clean (Name (header_of e)).
Proof.
  unfold absent, defines. intros H Hl. rewrite Hl in H. cbn in H.
  apply String.eqb_neq in H. congruence.
Qed.

Lemma layer_all_True ls : Forall (layer_all (λ _, True)) ls.
Proof. apply Forall_forall. intros ? _ ? _. by apply Forall_forall. Qed.

Lemma layer_defines_absent p l :
  layer_defines p l = false → layer_all (absent p) l.
Proof.
  unfold layer_defines. intros H stream U. rewrite U in H.
  apply Forall_forall. intros e He%list_elem_of_In.
  unfold absent. destruct (defines p e) eqn:D; [|done].
  assert (existsb (defines p) (entries stream) = true) as X; [|congruence].
  apply existsb_exists. eauto.
Qed.

(** ** Lifting a relation between states through the loops *)

Section Lifting.

Context (tw : Writer) (targets : list string).
Context (P : TarEntry → Prop) (R : State → State → Prop).

Hypothesis R_refl : ∀ s, R s s.
Hypothesis R_trans : ∀ a b c, R a b → R b c → R a c.
Hypothesis R_write : ∀ e s s' r,
  P e → live (header_of e) = true →
  Clean (Name (header_of e)) ∉ processedTargets s →
  wanted (Clean (Name (header_of e))) targets = true →
  write_entry tw (set_Name (header_of e) (Clean (Name (header_of e)))) e s
  = (s', r) →
  R s s'.
Hypothesis R_next : ∀ s, R s (log EvNext s).
Hypothesis R_open : ∀ i s, R s (log (EvUncompressed i) s).
Hypothesis R_defer : ∀ i s, R s (defer (EvCloseLayer i) s).

Lemma visit_entry_lift e s s' r :
  P e → visit_entry tw targets e s = (s', r) → R s s'.
Proof.
  intros HP. rewrite visit_entry_unfold. cbn zeta. cbn [set_Name Name].
  destruct (live (header_of e)) eqn:Hl; cbn [andb];
    [|intros [= <- <-]; apply R_refl].
  case_bool_decide; cbn [negb andb]; [intros [= <- <-]; apply R_refl|].
  destruct (wanted _ targets) eqn:Hw; [|intros [= <- <-]; apply R_refl].
  intros Hwr. by eapply R_write.
Qed.

Lemma read_entries_lift es eof s s' r :
  Forall P es → read_entries tw targets es eof s = (s', r) → R s s'.
Proof.
  revert s. induction es as [|e es IH]; intros s HP; simpl.
  - destruct eof; intros [= <- <-]; apply R_next.
  - inversion HP; subst.
    destruct (visit_entry tw targets e (log EvNext s)) as [s1 [err|]] eqn:V.
    + intros [= <- <-].
      eapply R_trans; [apply R_next | by eapply visit_entry_lift].
    + intros H. eapply R_trans; [apply R_next|].
      eapply R_trans; [by eapply visit_entry_lift|by eapply IH].
Qed.

(** A successful pass over [pre ++ es] is a pass over [pre] followed by
    one over [es]. *)
Lemma read_entries_prefix pre es eof s s' :
  Forall P pre → read_entries tw targets (pre ++ es) eof s = (s', None) →
  ∃ sa, R s sa ∧ read_entries tw targets es eof sa = (s', None).
Proof.
  revert s. induction pre as [|e pre IH]; intros s HP.
  - intros H. exists s. split; [apply R_refl | exact H].
  - inversion HP; subst. cbn [app read_entries].
    destruct (visit_entry tw targets e (log EvNext s)) as [s1 [err|]] eqn:V;
      [done|].
    intros H. destruct (IH s1) as (sa & HR & Hsa); [done..|].
    exists sa. split; [|done].
    eapply R_trans; [apply R_next|].
    eapply R_trans; [by eapply visit_entry_lift | done].
Qed.

Lemma range_layers_lift ls s s' r :
  Forall (layer_all P) ls → range_layers tw targets ls s = (s', r) → R s s'.
Proof.
  revert s. induction ls as [|l ls IH]; intros s HP; simpl.
  - intros [= <- <-]; apply R_refl.
  - inversion HP as [|? ? Hl Hls]; subst.
    destruct (Uncompressed l) as [stream|err] eqn:U.
    + destruct (read_entries _ _ _ _ _) as [s3 [err|]] eqn:E.
      * intros [= <- <-].
        eapply R_trans; [apply R_open|].
        eapply R_trans; [apply R_defer|].
        eapply read_entries_lift; [by apply Hl | exact E].
      * intros H.
        eapply R_trans; [apply R_open|].
        eapply R_trans; [apply R_defer|].
        eapply R_trans; [eapply read_entries_lift; [by apply Hl | exact E]|].
        by eapply IH.
    + intros [= <- <-]. apply R_open.
Qed.

Lemma range_layers_prefix top rest s s' :
  Forall (layer_all P) top →
  range_layers tw targets (top ++ rest) s = (s', None) →
  ∃ sa, R s sa ∧ range_layers tw targets rest sa = (s', None).
Proof.
  revert s. induction top as [|l ls IH]; intros s HP; simpl.
  - intros H. exists s. split; [apply R_refl | exact H].
  - inversion HP as [|? ? Hl Hls]; subst.
    destruct (Uncompressed l) as [stream|err] eqn:U; [|done].
    destruct (read_entries _ _ _ _ _) as [s3 [err|]] eqn:E; [done|].
    intros H. destruct (IH s3) as (sa & HR & Hsa); [done..|].
    exists sa. split; [|done].
    eapply R_trans; [apply R_open|].
    eapply R_trans; [apply R_defer|].
    eapply R_trans; [eapply read_entries_lift; [by apply Hl | exact E]|done].
Qed.

End Lifting.

(** ** Relations that the loops preserve *)

Section Preserved.

Context (tw : Writer) (targets : list string) (p : string).

Lemma shadowed_refl s : shadowed p s s.
Proof. by intros ?. Qed.

Lemma shadowed_trans a b c : shadowed p a b → shadowed p b c → shadowed p a c.
Proof.
  intros Hab Hbc Ha. destruct (Hab Ha) as [Hb E1].
  destruct (Hbc Hb) as [Hc E2]. split; [done | congruence].
Qed.

Lemma shadowed_write e s s' r :
  True → live (header_of e) = true →
  Clean (Name (header_of e)) ∉ processedTargets s →
  wanted (Clean (Name (header_of e))) targets = true →
  write_entry tw (set_Name (header_of e) (Clean (Name (header_of e)))) e s
  = (s', r) →
  shadowed p s s'.
Proof.
  intros _ _ Hn _ Hw Hp.
  eapply write_entry_other in Hw as [Hiff E];
    [|cbn; intros E; apply Hn; by rewrite <- E].
  split; [by apply Hiff | exact E].
Qed.

Lemma read_entries_shadowed es eof s s' r :
  read_entries tw targets es eof s = (s', r) → shadowed p s s'.
Proof.
  apply (read_entries_lift tw targets (λ _, True) (shadowed p));
    [apply shadowed_refl | apply shadowed_trans | apply shadowed_write
    | by intros ? ? | by apply Forall_forall].
Qed.

Lemma range_layers_shadowed ls s s' r :
  range_layers tw targets ls s = (s', r) → shadowed p s s'.
Proof.
  apply (range_layers_lift tw targets (λ _, True) (shadowed p));
    [apply shadowed_refl | apply shadowed_trans | apply shadowed_write
    | by intros ? ? | by intros ? ? ? | by intros ? ? ?
    | apply layer_all_True].
Qed.

Lemma untouched_refl s : untouched p s s.
Proof. by intros ?. Qed.

Lemma untouched_trans a b c :
  untouched p a b → untouched p b c → untouched p a c.
Proof.
  intros Hab Hbc Ha. destruct (Hab Ha) as [Hb E1].
  destruct (Hbc Hb) as [Hc E2]. split; [done | congruence].
Qed.

Lemma untouched_write e s s' r :
  absent p e → live (header_of e) = true →
  Clean (Name (header_of e)) ∉ processedTargets s →
  wanted (Clean (Name (header_of e))) targets = true →
  write_entry tw (set_Name (header_of e) (Clean (Name (header_of e)))) e s
  = (s', r) →
  untouched p s s'.
Proof.
  intros Ha Hl _ _ Hw Hp.
  eapply write_entry_other in Hw as [Hiff E];
    [|cbn; by apply absent_neq].
  split; [by rewrite Hiff | exact E].
Qed.

Lemma read_entries_untouched pre es eof s s' :
  Forall (absent p) pre →
  read_entries tw targets (pre ++ es) eof s = (s', None) →
  ∃ sa, untouched p s sa ∧ read_entries tw targets es eof sa = (s', None).
Proof.
  apply (read_entries_prefix tw targets (absent p) (untouched p));
    [apply untouched_refl | apply untouched_trans | apply untouched_write
    | by intros ? ?].
Qed.

Lemma range_layers_untouched top rest s s' :
  Forall (layer_all (absent p)) top →
  range_layers tw targets (top ++ rest) s = (s', None) →
  ∃ sa, untouched p s sa ∧ range_layers tw targets rest sa = (s', None).
Proof.
  apply (range_layers_prefix tw targets (absent p) (untouched p));
    [apply untouched_refl | apply untouched_trans | apply untouched_write
    | by intros ? ? | by intros ? ? ? | by intros ? ? ?].
Qed.

Lemma range_layers_untouched_all ls s s' r :
  Forall (layer_all (absent p)) ls →
  range_layers tw targets ls s = (s', r) → untouched p s s'.
Proof.
  apply (range_layers_lift tw targets (absent p) (untouched p));
    [apply untouched_refl | apply untouched_trans | apply untouched_write
    | by intros ? ? | by intros ? ? ? | by intros ? ? ?].
Qed.

Lemma archive_ok_write e s s' r :
  True → live (header_of e) = true →
  Clean (Name (header_of e)) ∉ processedTargets s →
  wanted (Clean (Name (header_of e))) targets = true →
  write_entry tw (set_Name (header_of e) (Clean (Name (header_of e)))) e s
  = (s', r) →
  archive_ok targets s → archive_ok targets s'.
Proof.
  intros _ _ Hn Hw Hwr [Hnd Hall].
  pose proof (write_entry_written _ _ _ _ _ _ Hwr) as Hwri.
  apply write_entry_effect in Hwr as (Hpr & _ & _ & _).
  unfold archive_ok. rewrite Hwri, Hpr. cbn [fmap list_fmap set_Name Name].
  split.
  - apply NoDup_cons. split; [|exact Hnd].
    intros (h & Hh & Hin)%list_elem_of_fmap.
    apply Hall in Hin as (Hin & _). cbn in Hh. by rewrite <- Hh in Hin.
  - intros h [->|Hin]%elem_of_cons.
    + cbn. split; [apply elem_of_union; left; by apply elem_of_singleton|].
      split; [done|]. by eexists.
    + destruct (Hall h Hin) as (? & ? & ?).
      split; [apply elem_of_union; by right|]. done.
Qed.

Lemma range_layers_archive_ok ls s s' r :
  range_layers tw targets ls s = (s', r) →
  archive_ok targets s → archive_ok targets s'.
Proof.
  apply (range_layers_lift tw targets (λ _, True)
           (λ s s', archive_ok targets s → archive_ok targets s'));
    [by intros ? ? | intros a b c Hab Hbc Ha; by apply Hbc, Hab
    | apply archive_ok_write | by intros ? ? | by intros ? ? ?
    | by intros ? ? ? | apply layer_all_True].
Qed.

Lemma range_layers_closes_only ls s s' r :
  range_layers tw targets ls s = (s', r) → closes_only s → closes_only s'.
Proof.
  apply (range_layers_lift tw targets (λ _, True)
           (λ s s', closes_only s → closes_only s'));
    [by intros ? ? | intros a b c Hab Hbc Ha; by apply Hbc, Hab
    | | by intros ? ? | by intros ? ? ? | by intros ? ? ?
    | apply layer_all_True].
  intros e s0 s1 r0 _ _ _ _ Hw. unfold closes_only.
  apply write_entry_effect in Hw as (_ & -> & _). done.
Qed.

End Preserved.

(** ** The entry that defines a path *)

Lemma visit_entry_hit tw targets e s s' p :
  defines p e = true → wanted p targets = true → p ∉ processedTargets s →
  visit_entry tw targets e s = (s', None) →
  p ∈ processedTargets s'
  ∧ events_about p (trace s')
    = [EvCopy (set_Name (header_of e) p) e;
       EvWriteHeader (set_Name (header_of e) p)] ++ events_about p (trace s).
Proof.
  unfold defines. intros [Hl Hp%String.eqb_eq]%andb_true_iff Hw Hn.
  rewrite visit_entry_unfold. cbn zeta. cbn [set_Name Name].
  rewrite Hl, Hp, Hw. rewrite bool_decide_eq_false_2 by done. cbn [negb andb].
  intros H. apply write_entry_effect in H as (Hpr & _ & _ & Htr).
  rewrite Hpr, Htr by done.
  split; [apply elem_of_union; left; by apply elem_of_singleton|].
  by rewrite !events_about_cons_same.
Qed.

(** ** Runs without I/O failure *)

Lemma write_entry_healthy tw header e s :
  healthy_writer tw → read_fault e = None →
  snd (write_entry tw header e s) = None.
Proof.
  intros Hw He. unfold write_entry, io_Copy. by rewrite Hw, He, Hw.
Qed.

Lemma read_entries_healthy tw targets es s :
  healthy_writer tw →
  forallb (λ e, bool_decide (read_fault e = None)) es = true →
  snd (read_entries tw targets es None s) = None.
Proof.
  intros Hw. revert s. induction es as [|e es IH]; intros s; simpl; [done|].
  intros [He%bool_decide_eq_true Hes]%andb_true_iff.
  destruct (visit_entry tw targets e (log EvNext s)) as [s1 r] eqn:V.
  assert (r = None) as ->.
  { rewrite visit_entry_unfold in V. cbn zeta in V.
    destruct (_ && _ && _).
    - pose proof (write_entry_healthy tw
        (set_Name (header_of e) (Clean (Name (header_of e)))) e
        (log EvNext s) Hw He) as Hs.
      by rewrite V in Hs.
    - by injection V. }
  by apply IH.
Qed.

Lemma range_layers_healthy tw targets ls s :
  healthy_writer tw → forallb healthy_layer ls = true →
  snd (range_layers tw targets ls s) = None.
Proof.
  intros Hw. revert s. induction ls as [|l ls IH]; intros s; simpl; [done|].
  intros [Hl Hls]%andb_true_iff. unfold healthy_layer in Hl.
  destruct (Uncompressed l) as [stream|]; [|done].
  destruct (broken stream) eqn:B; [done|].
  pose proof (read_entries_healthy tw targets (entries stream)
                (defer (EvCloseLayer (length ls))
                       (log (EvUncompressed (length ls)) s))
                Hw Hl) as Hr.
  destruct (read_entries _ _ _ _ _) as [s3 r]. cbn in Hr. subst r.
  by apply IH.
Qed.

(** ** Validation of the targets *)

Lemma range_duplicates_None ts (X : gset string) :
  range_duplicates ts X = None ↔ NoDup ts ∧ ∀ t, t ∈ ts → t ∉ X.
Proof.
  revert X. induction ts as [|t ts IH]; intros X; simpl.
  - split; [intros _; split; [constructor | by intros ? ?%elem_of_nil] | done].
  - case_bool_decide as Ht.
    + split; [done|]. intros [_ H]. exfalso. apply (H t); [left | done].
    + rewrite IH. split.
      * intros [Hnd H]. split.
        -- apply NoDup_cons. split; [|done].
           intros Hin. apply (H t Hin), elem_of_union. left.
           by apply elem_of_singleton.
        -- intros t' [->|Hin]%elem_of_cons; [done|].
           intros HX. apply (H t' Hin), elem_of_union. by right.
      * intros [[Hnt Hnd]%NoDup_cons H]. split; [done|].
        intros t' Hin [->%elem_of_singleton|HX]%elem_of_union; [done|].
        apply (H t'); [by right | done].
Qed.

Lemma range_duplicates_Some ts (X : gset string) t :
  range_duplicates ts X = Some t →
  ∃ a b, ts = a ++ t :: b ∧ (t ∈ X ∨ t ∈ a).
Proof.
  revert X. induction ts as [|t' ts IH]; intros X; simpl; [done|].
  case_bool_decide as Ht.
  - intros [= ->]. exists [], ts. split; [done | by left].
  - intros (a & b & -> & Hin)%IH. exists (t' :: a), b. split; [done|].
    destruct Hin as [[->%elem_of_singleton|?]%elem_of_union|?];
      [right; left | by left | right; by right].
Qed.

(** ** The shape of a call *)

Lemma Extract_inv export img opts s r :
  Tarball opts = None → Extract export img opts = (s, r) →
  (Targets opts = [] ∧ s = initial
   ∧ r = Some "must provide at least one target")
  ∨ (∃ t, range_duplicates (Targets opts) ∅ = Some t ∧ s = initial
          ∧ r = Some ("duplicate target source detected: " +:+ t))
  ∨ (Targets opts ≠ [] ∧ NoDup (Targets opts)
     ∧ ((∃ err, Layers img = Err err ∧ s = log EvLayers initial
                ∧ r = Some ("retrieving image layers: " +:+ err))
        ∨ (∃ layers s3, Layers img = Ok layers
             ∧ range_layers (Destination opts) (Targets opts) (rev layers)
                            scanning = (s3, r)
             ∧ s = run_deferred s3))).
Proof.
  intros HT. unfold Extract. rewrite HT.
  destruct (Targets opts) as [|t ts] eqn:ET; cbn [length Nat.eqb].
  { intros [= <- <-]. by left. }
  destruct (range_duplicates (t :: ts) ∅) as [d|] eqn:D.
  { intros [= <- <-]. right. left. by exists d. }
  apply range_duplicates_None in D as [Hnd _].
  intros H. right. right. split; [done|]. split; [done|].
  destruct (Layers img) as [layers|err].
  - right. fold scanning in H.
    destruct (range_layers _ _ _ _) as [s3 r3] eqn:E.
    injection H as <- <-. by exists layers, s3.
  - left. injection H as <- <-. by exists err.
Qed.

Lemma forallb_rev {A} (f : A → bool) l : forallb f (rev l) = forallb f l.
Proof.
  induction l as [|x l IH]; simpl; [done|].
  rewrite forallb_app, IH. simpl. rewrite andb_true_r. apply andb_comm.
Qed.

Lemma run_deferred_events p s :
  closes_only s →
  events_about p (trace (run_deferred s)) = events_about p (trace s).
Proof.
  intros H. unfold run_deferred. cbn [trace].
  rewrite events_about_app, events_about_closes; [done|].
  by rewrite forallb_rev.
Qed.

Lemma wanted_target t targets :
  t ∈ targets → wanted (TrimPrefix t "/") targets = true.
Proof.
  intros Hin%list_elem_of_In. apply existsb_exists. exists t.
  split; [done | apply String.eqb_refl].
Qed.

(** ** The entry that is effective for a path *)

(** [e] is the first entry for [p] in the most recent layer that has one:
    a successful pass over the layers writes [e] for [p] and nothing
    else. *)
Lemma range_layers_effective tw targets p older l newer stream pre e post
    s s' :
  range_layers tw targets (rev (older ++ l :: newer)) s = (s', None) →
  Uncompressed l = Ok stream → entries stream = pre ++ e :: post →
  defines p e = true → wanted p targets = true →
  Forall (absent p) pre → Forall (λ l', layer_defines p l' = false) newer →
  p ∉ processedTargets s →
  events_about p (trace s')
  = [EvCopy (set_Name (header_of e) p) e;
     EvWriteHeader (set_Name (header_of e) p)] ++ events_about p (trace s).
Proof.
  intros H U E D W Hpre Hnewer Hp.
  rewrite rev_app_distr in H. cbn [rev] in H. rewrite <- app_assoc in H.
  cbn [app] in H.
  apply (range_layers_untouched tw targets p) in H as (sa & Ha & H).
  2:{ apply Forall_rev. eapply Forall_impl; [exact Hnewer|].
      intros ?. apply layer_defines_absent. }
  destruct (Ha Hp) as [Hpa Ea].
  cbn [range_layers] in H. rewrite U, E in H.
  destruct (read_entries _ _ _ _ _) as [sb [err|]] eqn:RE; [done|].
  apply (read_entries_untouched tw targets p) in RE as (sc & Hc & RE);
    [|done].
  destruct (Hc Hpa) as [Hpc Ec]. cbn [defer log trace] in Ec.
  rewrite events_about_cons_other in Ec by done.
  cbn [read_entries] in RE.
  destruct (visit_entry tw targets e (log EvNext sc)) as [sd [err|]] eqn:V;
    [done|].
  apply (visit_entry_hit _ _ _ _ _ p) in V as [Hpd Ed]; [|done..].
  cbn [log trace] in Ed. rewrite events_about_cons_other in Ed by done.
  apply (read_entries_shadowed tw targets p) in RE.
  destruct (RE Hpd) as [Hpb Eb].
  apply (range_layers_shadowed tw targets p) in H.
  destruct (H Hpb) as [_ Es].
  congruence.
Qed.

(** ** Facts about a whole call *)

Lemma run_deferred_written s :
  closes_only s → written (trace (run_deferred s)) = written (trace s).
Proof.
  intros H. unfold run_deferred, written. cbn [trace].
  rewrite omap_app.
  assert (E : ∀ l, forallb is_close l = true →
              omap (λ ev, match ev with
                          | EvWriteHeader header => Some header
                          | _ => None
                          end) l = []).
  { induction l as [|ev l IH]; simpl; [done|].
    intros [Hev Hl]%andb_true_iff. destruct ev; try done; by apply IH. }
  rewrite E; [done|]. by rewrite forallb_rev.
Qed.

Lemma closes_only_scanning : closes_only scanning.
Proof. reflexivity. Qed.

Lemma archive_ok_scanning targets : archive_ok targets scanning.
Proof.
  split; cbn; [constructor|]. by intros ? ?%elem_of_nil.
Qed.

Lemma NoDup_range_duplicates ts : NoDup ts → range_duplicates ts ∅ = None.
Proof.
  intros H. apply range_duplicates_None. split; [done|].
  intros ? _. apply not_elem_of_empty.
Qed.

Lemma healthy_accepting : healthy_writer accepting.
Proof. intros ? ?. reflexivity. Qed.

Lemma unclean_absent p e :
  dot_slash_prefixed p ∨ doubled_separator p ∨ trailing_separator p →
  absent p e.
Proof.
  intros Hbad. unfold absent, defines.
  destruct (String.eqb_spec (Clean (Name (header_of e))) p) as [<-|];
    [|apply andb_false_r].
  exfalso. destruct Hbad as [H|[H|H]];
    [by apply Clean_no_dot_slash in H | by apply Clean_no_double in H
    | by apply Clean_no_trailing in H].
Qed.

(** ** Targets that differ in a leading separator *)

Section SameNames.

Context (tw : Writer) (ts1 ts2 : list string).
Hypothesis same : ∀ name, wanted name ts1 = wanted name ts2.

Lemma visit_entry_ext e s :
  visit_entry tw ts1 e s = visit_entry tw ts2 e s.
Proof. rewrite !visit_entry_unfold. cbn zeta. by rewrite same. Qed.

Lemma read_entries_ext es eof s :
  read_entries tw ts1 es eof s = read_entries tw ts2 es eof s.
Proof.
  revert s. induction es as [|e es IH]; intros s; cbn [read_entries]; [done|].
  rewrite visit_entry_ext.
  destruct (visit_entry tw ts2 e (log EvNext s)) as [s1 [err|]]; [done|].
  apply IH.
Qed.

Lemma range_layers_ext ls s :
  range_layers tw ts1 ls s = range_layers tw ts2 ls s.
Proof.
  revert s. induction ls as [|l ls IH]; intros s; cbn [range_layers]; [done|].
  destruct (Uncompressed l) as [stream|]; [|done].
  rewrite read_entries_ext.
  destruct (read_entries tw ts2 _ _ _) as [s3 [err|]]; [done|].
  apply IH.
Qed.

End SameNames.

(** ** Calls and failures *)

Lemma write_entry_calls img tw header e s s' r :
  calls_ok img tw (trace s) → write_entry tw header e s = (s', r) →
  outcome img tw (trace s') r
  ∧ opened (trace s') = opened (trace s)
  ∧ nexts_since_open (trace s') = nexts_since_open (trace s).
Proof.
  intros Hok. unfold write_entry. cbn [mark log trace].
  destruct (fault tw (trace s) (EvWriteHeader header)) as [c|] eqn:F.
  - intros [= <- <-]. cbn [trace]. split; [|done].
    exists (EvWriteHeader header), (trace s), c. by repeat split.
  - destruct (io_Copy tw _ header e) as [c|] eqn:C; intros [= <- <-];
      cbn [trace]; (split; [|done]).
    + exists (EvCopy header e), (EvWriteHeader header :: trace s), c.
      by repeat split.
    + by repeat split.
Qed.

Lemma visit_entry_calls img tw targets e s s' r :
  calls_ok img tw (trace s) → visit_entry tw targets e s = (s', r) →
  outcome img tw (trace s') r
  ∧ opened (trace s') = opened (trace s)
  ∧ nexts_since_open (trace s') = nexts_since_open (trace s).
Proof.
  intros Hok. rewrite visit_entry_unfold. cbn zeta.
  destruct (_ && _ && _); [by apply write_entry_calls|].
  by intros [= <- <-].
Qed.

Lemma current_stream_opened img tr tr' :
  opened tr' = opened tr → current_stream img tr' = current_stream img tr.
Proof. unfold current_stream. by intros ->. Qed.

(** Reading a stream from its entry number [length seen] on. *)
Lemma read_entries_calls img tw targets stream seen es s s' r :
  current_stream img (trace s) = Some stream →
  entries stream = seen ++ es →
  nexts_since_open (trace s) = length seen →
  calls_ok img tw (trace s) →
  read_entries tw targets es (broken stream) s = (s', r) →
  outcome img tw (trace s') r.
Proof.
  revert seen s. induction es as [|e es IH]; intros seen s Hcur Hes Hn Hok;
    cbn [read_entries].
  - rewrite app_nil_r in Hes.
    assert (Hf : call_fault img tw (trace s) EvNext = broken stream).
    { cbn. rewrite Hcur, Hn, Hes, Nat.eqb_refl. done. }
    assert (Hp : call_placed img (trace s) EvNext).
    { exists stream. split; [done|]. rewrite Hn, Hes. done. }
    destruct (broken stream) as [c|] eqn:B; intros [= <- <-]; cbn [log trace].
    + exists EvNext, (trace s), c. by repeat split.
    + by repeat split.
  - assert (Hf : call_fault img tw (trace s) EvNext = None).
    { cbn. rewrite Hcur, Hn, Hes, length_app. cbn [length].
      destruct (Nat.eqb_spec (length seen) (length seen + S (length es)));
        [lia | done]. }
    assert (Hp : call_placed img (trace s) EvNext).
    { exists stream. split; [done|]. rewrite Hn, Hes, length_app. lia. }
    destruct (visit_entry tw targets e (log EvNext s)) as [s1 r1] eqn:V.
    apply (visit_entry_calls img) in V as (Hout & Hop & Hnx);
      [|by repeat split].
    destruct r1 as [err|]; [by intros [= <- <-]|].
    apply (IH (seen ++ [e])).
    + rewrite (current_stream_opened _ _ _ Hop). exact Hcur.
    + by rewrite <- app_assoc.
    + rewrite Hnx. cbn. rewrite Hn, length_app. cbn. lia.
    + exact Hout.
Qed.

Lemma rev_lookup_suffix {A} (layers top below : list A) l :
  rev layers = top ++ l :: below → layers !! length below = Some l.
Proof.
  intros H. apply (f_equal (@rev A)) in H.
  rewrite rev_involutive, rev_app_distr in H. cbn [rev] in H.
  rewrite <- app_assoc in H. cbn [app] in H. rewrite H.
  rewrite <- length_rev. apply list_lookup_middle. done.
Qed.

Lemma range_layers_calls img tw targets layers top ls s s' r :
  Layers img = Ok layers → rev layers = top ++ ls →
  calls_ok img tw (trace s) →
  range_layers tw targets ls s = (s', r) →
  outcome img tw (trace s') r.
Proof.
  intros HL. revert top s. induction ls as [|l below IH]; intros top s Hrev Hok;
    cbn [range_layers].
  - by intros [= <- <-].
  - pose proof (rev_lookup_suffix _ _ _ _ Hrev) as Hl.
    assert (Hp : call_placed img (trace s) (EvUncompressed (length below))).
    { by exists layers, l. }
    destruct (Uncompressed l) as [stream|c] eqn:U.
    + assert (Hf : call_fault img tw (trace s) (EvUncompressed (length below))
                   = None).
      { cbn. by rewrite HL, Hl, U. }
      destruct (read_entries _ _ _ _ _) as [s3 r3] eqn:RE.
      apply (read_entries_calls img _ _ _ []) in RE.
      * destruct r3 as [err|]; [by intros [= <- <-]|].
        apply (IH (top ++ [l])); [by rewrite <- app_assoc | exact RE].
      * unfold current_stream. cbn. by rewrite HL, Hl, U.
      * done.
      * done.
      * by repeat split.
    + intros [= <- <-]. cbn [log trace].
      exists (EvUncompressed (length below)), (trace s), c.
      repeat split; try done. cbn. by rewrite HL, Hl, U.
Qed.

Lemma calls_ok_closes img tw closes tr :
  forallb is_close closes = true → calls_ok img tw tr →
  calls_ok img tw (closes ++ tr).
Proof.
  induction closes as [|ev closes IH]; cbn; [done|].
  intros [Hev Hcl]%andb_true_iff Hok.
  by destruct ev; try done; repeat split; apply IH.
Qed.

(** ** The properties of the specification *)

(** C1 (overlay precedence).  In a call that succeeds, let [t] be a target
    and [e] the first live entry (not a directory, not of size zero) whose
    cleaned name is [t] without its leading separator, in the most recent
    layer that has such an entry.  Then the calls to the tar writer about
    that path are exactly one [WriteHeader] with [e]'s header under the
    cleaned name and one [Copy] of [e]'s content: whatever older layers
    hold for the path is never written. *)
Theorem overlay_precedence export img opts s older l newer stream pre e post
    t :
  Tarball opts = None →
  Extract export img opts = (s, None) →
  t ∈ Targets opts →
  Layers img = Ok (older ++ l :: newer) →
  Uncompressed l = Ok stream →
  entries stream = pre ++ e :: post →
  defines (TrimPrefix t "/") e = true →
  Forall (absent (TrimPrefix t "/")) pre →
  Forall (λ l', layer_defines (TrimPrefix t "/") l' = false) newer →
  events_about (TrimPrefix t "/") (trace s)
  = [EvCopy (set_Name (header_of e) (TrimPrefix t "/")) e;
     EvWriteHeader (set_Name (header_of e) (TrimPrefix t "/"))].
Proof.
  intros HT HE Ht HL U E D Hpre Hnewer.
  apply (Extract_inv _ _ _ _ _ HT) in HE
    as [(_ & _ & ?)|[(? & _ & _ & ?)|(_ & _ & HE)]]; [done..|].
  destruct HE as [(? & _ & _ & ?)|(layers & s3 & HL' & HR & ->)]; [done|].
  rewrite HL in HL'. injection HL' as <-.
  rewrite run_deferred_events
    by (eapply range_layers_closes_only; [exact HR | apply closes_only_scanning]).
  rewrite (range_layers_effective _ _ _ _ _ _ _ _ _ _ _ _ HR U E D
             (wanted_target _ _ Ht) Hpre Hnewer); [reflexivity|].
  apply not_elem_of_empty.
Qed.

(** The stack of the spec's scenario: [x] is written from the most recent
    layer. *)
Lemma overlay_precedence_witness :
  events_about "x"
    (trace (fst (Extract no_export two_layers (options_for ["x"; "y"; "z"]))))
  = [EvCopy (set_Name (header_of (file "x" "new")) "x") (file "x" "new");
     EvWriteHeader (set_Name (header_of (file "x" "new")) "x")].
Proof.
  apply (overlay_precedence no_export two_layers (options_for ["x"; "y"; "z"])
           _ [layer_of [file "x" "old"]]
           (layer_of [file "x" "new"; file "y" "data"]) []
           {| entries := [file "x" "new"; file "y" "data"]; broken := None |}
           [] (file "x" "new") [file "y" "data"] "x").
  - reflexivity.
  - vm_compute. reflexivity.
  - by left.
  - reflexivity.
  - reflexivity.
  - reflexivity.
  - vm_compute. reflexivity.
  - constructor.
  - constructor.
Defined.

(** C2 (deletion by shadowing) fails on the code.  With [x] in the lower
    layer and the whiteout marker [.wh.x] in the upper one, [Extract]
    succeeds and writes [x] with the lower layer's content: the marker, an
    entry of size zero, is skipped at line 86 and nothing records the
    removal. *)
Theorem whiteout_not_honoured :
  snd (Extract no_export whiteout_image (options_for ["x"])) = None
  ∧ events_about "x"
      (trace (fst (Extract no_export whiteout_image (options_for ["x"]))))
    = [EvCopy (header_of (file "x" "old")) (file "x" "old");
       EvWriteHeader (header_of (file "x" "old"))].
Proof. vm_compute. by split. Qed.

(** Against C3 as the spec states it: the targets [x] and [/x] name the
    same path once the leading separator is stripped, yet the call passes
    validation, reads both layers and succeeds. *)
Lemma normalized_duplicates_accepted :
  TrimPrefix "x" "/" = TrimPrefix "/x" "/"
  ∧ snd (Extract no_export two_layers (options_for ["x"; "/x"])) = None
  ∧ opened (trace (fst (Extract no_export two_layers (options_for ["x"; "/x"]))))
    = [0; 1]%nat.
Proof. vm_compute. repeat split. Qed.

(** C3 (no duplicates accepted), as the code has it.  When the same string
    occurs twice among the targets, [Extract] returns the error
    "duplicate target source detected: t" for such a string [t], and has
    made no call at all: no layer is read.  Strings are compared as they
    are given. *)
Theorem duplicate_target_rejected export img opts :
  Tarball opts = None → ¬ NoDup (Targets opts) →
  ∃ t a b c,
    Targets opts = a ++ t :: b ++ t :: c
    ∧ Extract export img opts
      = (initial, Some ("duplicate target source detected: " +:+ t))
    ∧ trace (fst (Extract export img opts)) = [].
Proof.
  intros HT Hdup.
  destruct (range_duplicates (Targets opts) ∅) as [t|] eqn:D.
  2:{ apply range_duplicates_None in D as [? _]. done. }
  pose proof D as D'.
  apply range_duplicates_Some in D' as (a & c & Hts & [Hin|Hin]);
    [by apply not_elem_of_empty in Hin|].
  apply list_elem_of_split in Hin as (a1 & a2 & ->).
  exists t, a1, a2, c.
  assert (E : Extract export img opts
              = (initial, Some ("duplicate target source detected: " +:+ t))).
  { unfold Extract. rewrite HT, D, Hts. by destruct a1. }
  rewrite E. split; [by rewrite Hts, <- app_assoc|]. done.
Qed.

(** The spec's scenario with targets [x], [x]. *)
Lemma duplicate_target_rejected_witness :
  ∃ t a b c,
    ["x"; "x"] = a ++ t :: b ++ t :: c
    ∧ Extract no_export two_layers (options_for ["x"; "x"])
      = (initial, Some ("duplicate target source detected: " +:+ t))
    ∧ trace (fst (Extract no_export two_layers (options_for ["x"; "x"]))) = [].
Proof.
  apply (duplicate_target_rejected no_export two_layers (options_for ["x"; "x"])).
  - reflexivity.
  - intros [Hx _]%NoDup_cons. apply Hx. by left.
Defined.

(** C4 (completeness bound).  In a call that succeeds, the headers written
    to the output archive are at most as many as the targets, their names
    are pairwise distinct, and each name is normalized ([Clean] leaves it
    as it is) and is a target with one leading separator stripped. *)
Theorem completeness_bound export img opts s :
  Tarball opts = None → Extract export img opts = (s, None) →
  (length (written (trace s)) ≤ length (Targets opts))%nat
  ∧ NoDup (fmap Name (written (trace s)))
  ∧ (∀ header, header ∈ written (trace s) →
       Clean (Name header) = Name header
       ∧ ∃ t, t ∈ Targets opts ∧ Name header = TrimPrefix t "/").
Proof.
  intros HT HE.
  apply (Extract_inv _ _ _ _ _ HT) in HE
    as [(_ & _ & ?)|[(? & _ & _ & ?)|(_ & _ & HE)]]; [done..|].
  destruct HE as [(? & _ & _ & ?)|(layers & s3 & HL & HR & ->)]; [done|].
  rewrite run_deferred_written
    by (eapply range_layers_closes_only; [exact HR | apply closes_only_scanning]).
  destruct (range_layers_archive_ok _ _ _ _ _ _ HR (archive_ok_scanning _))
    as [Hnd Hall].
  assert (Hw : ∀ header, header ∈ written (trace s3) →
            ∃ t, t ∈ Targets opts ∧ Name header = TrimPrefix t "/").
  { intros h Hh. destruct (Hall h Hh) as (_ & Hw & _).
    apply existsb_exists in Hw as (t & Hin%list_elem_of_In & Heq%String.eqb_eq).
    by exists t. }
  split; [|split; [done|]].
  2:{ intros h Hh. split; [|by apply Hw].
      destruct (Hall h Hh) as (_ & _ & raw & ->). apply Clean_idempotent. }
  rewrite <- (length_fmap Name), <- (length_fmap (λ t, TrimPrefix t "/") (Targets opts)).
  apply submseteq_length, NoDup_submseteq; [done|].
  intros n (h & -> & Hh)%list_elem_of_fmap.
  destruct (Hw h Hh) as (t & Hin & ->).
  apply list_elem_of_fmap. by exists t.
Qed.

(** The spec's scenario: three targets, two of them found. *)
Lemma completeness_bound_witness :
  let s := fst (Extract no_export two_layers (options_for ["x"; "y"; "z"])) in
  (length (written (trace s)) ≤ 3)%nat
  ∧ NoDup (fmap Name (written (trace s)))
  ∧ (∀ header, header ∈ written (trace s) →
       Clean (Name header) = Name header
       ∧ ∃ t, t ∈ ["x"; "y"; "z"] ∧ Name header = TrimPrefix t "/").
Proof.
  apply (completeness_bound no_export two_layers (options_for ["x"; "y"; "z"])).
  - reflexivity.
  - vm_compute. reflexivity.
Defined.

(** C5 (leading separator of a target).  For an image whose layers can all
    be read and a writer that accepts every call, let [e] be an entry
    named [./a/b], live, and the first entry for [a/b] in the most recent
    layer that has one.  Then the calls with target [/a/b] and with target
    [a/b] are the same call (same result, same trace), they succeed, and
    what they write for [a/b] is [e]'s header under the cleaned name and
    [e]'s content. *)
Theorem leading_separator_immaterial export img dest older l newer stream
    pre e post :
  Layers img = Ok (older ++ l :: newer) →
  forallb healthy_layer (older ++ l :: newer) = true →
  healthy_writer dest →
  Uncompressed l = Ok stream →
  entries stream = pre ++ e :: post →
  Name (header_of e) = "./a/b" → live (header_of e) = true →
  Forall (absent "a/b") pre →
  Forall (λ l', layer_defines "a/b" l' = false) newer →
  let run := λ target,
    Extract export img
            {| Tarball := None; Targets := [target]; Destination := dest |} in
  run "/a/b" = run "a/b"
  ∧ snd (run "a/b") = None
  ∧ events_about "a/b" (trace (fst (run "a/b")))
    = [EvCopy (set_Name (header_of e) "a/b") e;
       EvWriteHeader (set_Name (header_of e) "a/b")].
Proof.
  intros HL Hh Hw U E Hname Hlive Hpre Hnewer run.
  assert (Hrun : ∀ target, run target =
            let (s3, r) := range_layers dest [target]
                             (rev (older ++ l :: newer)) scanning in
            (run_deferred s3, r)).
  { intros target. unfold run, Extract. cbn [Tarball Targets Destination length
      Nat.eqb range_duplicates].
    rewrite bool_decide_eq_false_2 by apply not_elem_of_empty.
    by rewrite HL. }
  assert (Hsame : run "/a/b" = run "a/b").
  { rewrite !Hrun. by rewrite (range_layers_ext dest ["/a/b"] ["a/b"]). }
  split; [exact Hsame|].
  rewrite Hrun.
  pose proof (range_layers_healthy dest ["a/b"] (rev (older ++ l :: newer))
                scanning Hw) as Hr.
  rewrite forallb_rev in Hr. specialize (Hr Hh).
  destruct (range_layers dest ["a/b"] _ scanning) as [s3 r] eqn:HR.
  cbn in Hr. subst r. cbn [fst snd]. split; [done|].
  rewrite run_deferred_events
    by (eapply range_layers_closes_only; [exact HR | apply closes_only_scanning]).
  assert (D : defines "a/b" e = true).
  { unfold defines. rewrite Hlive, Hname. vm_compute. reflexivity. }
  rewrite (range_layers_effective _ _ _ _ _ _ _ _ _ _ _ _ HR U E D
             (eq_refl : wanted "a/b" ["a/b"] = true) Hpre Hnewer);
    [reflexivity | apply not_elem_of_empty].
Qed.

(** One layer with the entry [./a/b]. *)
Lemma leading_separator_immaterial_witness :
  let run := λ target,
    Extract no_export dotted_image
            {| Tarball := None; Targets := [target];
               Destination := accepting |} in
  run "/a/b" = run "a/b"
  ∧ snd (run "a/b") = None
  ∧ events_about "a/b" (trace (fst (run "a/b")))
    = [EvCopy (set_Name (header_of (file "./a/b" "tool")) "a/b")
              (file "./a/b" "tool");
       EvWriteHeader (set_Name (header_of (file "./a/b" "tool")) "a/b")].
Proof.
  apply (leading_separator_immaterial no_export dotted_image accepting
           [] (layer_of [file "./a/b" "tool"]) []
           {| entries := [file "./a/b" "tool"]; broken := None |}
           [] (file "./a/b" "tool") []).
  - reflexivity.
  - vm_compute. reflexivity.
  - apply healthy_accepting.
  - reflexivity.
  - reflexivity.
  - reflexivity.
  - vm_compute. reflexivity.
  - constructor.
  - constructor.
Defined.

(** Against C6 as the spec states it: the error for an empty list of
    targets is not the text the spec quotes. *)
Lemma empty_targets_message :
  snd (Extract no_export two_layers (options_for []))
  = Some "must provide at least one target"
  ∧ snd (Extract no_export two_layers (options_for []))
    ≠ Some "no targets provided".
Proof. split; [reflexivity | discriminate]. Qed.

(** C6 (empty target list), as the code has it.  Without a tarball writer
    and with no target, [Extract] returns the error
    "must provide at least one target" and has made no call at all: no
    layer is read and nothing is written. *)
Theorem empty_targets_rejected export img opts :
  Tarball opts = None → Targets opts = [] →
  Extract export img opts = (initial, Some "must provide at least one target")
  ∧ trace (fst (Extract export img opts)) = [].
Proof. intros HT Hts. unfold Extract. by rewrite HT, Hts. Qed.

(** An empty list of targets on the stack of the spec's scenario. *)
Lemma empty_targets_rejected_witness :
  Extract no_export two_layers (options_for [])
  = (initial, Some "must provide at least one target")
  ∧ trace (fst (Extract no_export two_layers (options_for []))) = [].
Proof.
  apply (empty_targets_rejected no_export two_layers (options_for []));
    reflexivity.
Defined.

(** C7 (absence is not an error).  When no I/O fails and the targets pass
    validation, [Extract] succeeds, and for a target that no layer has a
    live entry for -- in particular one that appears in no layer -- no
    call to the tar writer is about it and it is not recorded as
    processed. *)
Theorem absent_target_omitted export img opts layers t :
  Tarball opts = None → NoDup (Targets opts) → t ∈ Targets opts →
  Layers img = Ok layers →
  forallb healthy_layer layers = true →
  healthy_writer (Destination opts) →
  Forall (λ l, layer_defines (TrimPrefix t "/") l = false) layers →
  snd (Extract export img opts) = None
  ∧ events_about (TrimPrefix t "/") (trace (fst (Extract export img opts))) = []
  ∧ TrimPrefix t "/" ∉ processedTargets (fst (Extract export img opts)).
Proof.
  intros HT Hnd Ht HL Hh Hw Habs.
  destruct (Extract export img opts) as [s r] eqn:HE. cbn [fst snd].
  apply (Extract_inv _ _ _ _ _ HT) in HE
    as [(E & _)|[(d & D & _)|(_ & _ & HE)]].
  { rewrite E in Ht. by apply elem_of_nil in Ht. }
  { by rewrite NoDup_range_duplicates in D. }
  destruct HE as [(? & ? & _)|(layers' & s3 & HL' & HR & ->)]; [congruence|].
  rewrite HL in HL'. injection HL' as <-.
  pose proof (range_layers_healthy (Destination opts) (Targets opts)
                (rev layers) scanning Hw) as Hr.
  rewrite forallb_rev, HR in Hr. cbn in Hr. specialize (Hr Hh). subst r.
  split; [done|].
  rewrite run_deferred_events
    by (eapply range_layers_closes_only; [exact HR | apply closes_only_scanning]).
  assert (A : Forall (layer_all (absent (TrimPrefix t "/"))) (rev layers)).
  { apply Forall_rev. eapply Forall_impl; [exact Habs|].
    intros ?. apply layer_defines_absent. }
  destruct (range_layers_untouched_all _ _ _ _ _ _ _ A HR) as [Hp Hev];
    [apply not_elem_of_empty|].
  by rewrite Hev.
Qed.

(** The spec's scenario: [z] is in no layer. *)
Lemma absent_target_omitted_witness :
  let r := Extract no_export two_layers (options_for ["x"; "y"; "z"]) in
  snd r = None
  ∧ events_about (TrimPrefix "z" "/") (trace (fst r)) = []
  ∧ TrimPrefix "z" "/" ∉ processedTargets (fst r).
Proof.
  apply (absent_target_omitted no_export two_layers
           (options_for ["x"; "y"; "z"])
           [layer_of [file "x" "old"];
            layer_of [file "x" "new"; file "y" "data"]] "z").
  - reflexivity.
  - refine (bool_decide_unpack _ _). vm_compute. exact I.
  - right. right. by left.
  - reflexivity.
  - vm_compute. reflexivity.
  - apply healthy_accepting.
  - repeat constructor.
Defined.

(** Against C8 as the spec states it: the same error comes back whether
    the layer that fails to open is layer 1 or layer 0; the error names
    neither a layer nor a path. *)
Lemma error_names_no_layer :
  let top := Extract no_export broken_top (options_for ["x"]) in
  let bottom := Extract no_export broken_bottom (options_for ["x"]) in
  snd top = Some "reading layer contents: unexpected EOF"
  ∧ snd bottom = snd top
  ∧ head (opened (trace (fst top))) = Some 1%nat
  ∧ head (opened (trace (fst bottom))) = Some 0%nat.
Proof. vm_compute. by repeat split. Qed.

(** C8 (I/O failures), as the code has it.  For targets that pass
    validation: when [Extract] succeeds, none of the calls it made to
    [img.Layers], [Uncompressed], [tarReader.Next], [tw.WriteHeader] and
    [io.Copy] failed; when it returns an error, the calls it made are a
    run of calls that succeeded, then the call that failed, then only the
    deferred closes, and the error is the cause of that failure behind the
    prefix [wrap] gives for the call: the path of the entry for the two
    calls to the tar writer, no path and no layer for the others. *)
Theorem io_failure_aborts export img opts s r :
  Tarball opts = None → Targets opts ≠ [] → NoDup (Targets opts) →
  Extract export img opts = (s, r) →
  match r with
  | None => calls_ok img (Destination opts) (trace s)
  | Some err =>
      ∃ closes tr,
        trace s = closes ++ tr ∧ forallb is_close closes = true
        ∧ aborted img (Destination opts) tr err
  end.
Proof.
  intros HT Hne Hnd HE.
  apply (Extract_inv _ _ _ _ _ HT) in HE
    as [(? & _)|[(d & D & _)|(_ & _ & HE)]]; [done| |].
  { by rewrite NoDup_range_duplicates in D. }
  destruct HE as [(c & HL & -> & ->)|(layers & s3 & HL & HR & ->)].
  - exists [], [EvLayers]. repeat split.
    exists EvLayers, [], c. repeat split. cbn. by rewrite HL.
  - pose proof (range_layers_closes_only _ _ _ _ _ _ HR closes_only_scanning)
      as Hcl.
    apply (range_layers_calls img _ _ layers []) in HR; [|done..|].
    2:{ cbn. rewrite HL. by repeat split. }
    unfold run_deferred. cbn [trace].
    destruct r as [err|].
    + exists (rev (deferred s3)), (trace s3). by rewrite forallb_rev.
    + apply calls_ok_closes; [by rewrite forallb_rev | done].
Qed.

(** A layer that fails to open below a layer that opens. *)
Lemma io_failure_aborts_witness :
  ∃ closes tr,
    trace (fst (Extract no_export broken_bottom (options_for ["x"])))
    = closes ++ tr
    ∧ forallb is_close closes = true
    ∧ aborted broken_bottom accepting tr
        "reading layer contents: unexpected EOF".
Proof.
  apply (io_failure_aborts no_export broken_bottom (options_for ["x"])
           (fst (Extract no_export broken_bottom (options_for ["x"])))
           (Some "reading layer contents: unexpected EOF")).
  - reflexivity.
  - discriminate.
  - refine (bool_decide_unpack _ _). vm_compute. exact I.
  - vm_compute. reflexivity.
Defined.

(** C9 (tarball mode).  With a tarball writer, [Extract] is the call of
    [crane.Export] on that writer and nothing else: its result is the
    result of the export whatever the targets are, and no call is made to
    the image's layers or to a tar writer on the destination. *)
Theorem tarball_delegates export img opts w :
  Tarball opts = Some w →
  Extract export img opts = (log EvExport initial, export img w)
  ∧ (∀ targets,
       Extract export img {| Tarball := Some w; Targets := targets;
                             Destination := Destination opts |}
       = Extract export img opts)
  ∧ trace (fst (Extract export img opts)) = [EvExport].
Proof.
  intros HT. unfold Extract. rewrite HT. cbn. done.
Qed.

(** A tarball writer together with a duplicated target: the export's own
    result comes back. *)
Lemma tarball_delegates_witness :
  let opts := {| Tarball := Some accepting; Targets := ["x"; "x"];
                 Destination := accepting |} in
  Extract (λ _ _, Some "export failed") two_layers opts
  = (log EvExport initial, Some "export failed")
  ∧ (∀ targets,
       Extract (λ _ _, Some "export failed") two_layers
               {| Tarball := Some accepting; Targets := targets;
                  Destination := accepting |}
       = Extract (λ _ _, Some "export failed") two_layers opts)
  ∧ trace (fst (Extract (λ _ _, Some "export failed") two_layers opts))
    = [EvExport].
Proof.
  apply (tarball_delegates (λ _ _, Some "export failed") two_layers
           {| Tarball := Some accepting; Targets := ["x"; "x"];
              Destination := accepting |} accepting).
  reflexivity.
Defined.

(** Against C10 as the spec states it: a target with a doubled separator
    at its start.  Stripping one leaves an absolute name, which is what
    [Clean] makes of an entry with an absolute name, and the entry is
    extracted. *)
Lemma doubled_leading_separator_matches :
  doubled_separator "//a/b"
  ∧ snd (Extract no_export absolute_image (options_for ["//a/b"])) = None
  ∧ events_about (TrimPrefix "//a/b" "/")
      (trace (fst (Extract no_export absolute_image (options_for ["//a/b"]))))
    = [EvCopy (header_of (file "/a/b" "abs")) (file "/a/b" "abs");
       EvWriteHeader (header_of (file "/a/b" "abs"))].
Proof.
  split; [by exists "", "a/b"|]. vm_compute. by split.
Qed.

(** C10 (targets are not cleaned), as the code has it.  For a target
    that, once one leading separator is stripped, starts with [./], holds
    a doubled separator, or ends with a separator after at least one other
    character: whatever the layers hold and however the call ends, no call
    to the tar writer is about it and it is never recorded as processed.
    The statement holds for every string, requested or not. *)
Theorem unnormalized_target_never_matches export img opts s r t :
  Tarball opts = None → Extract export img opts = (s, r) →
  dot_slash_prefixed (TrimPrefix t "/") ∨ doubled_separator (TrimPrefix t "/")
  ∨ trailing_separator (TrimPrefix t "/") →
  events_about (TrimPrefix t "/") (trace s) = []
  ∧ TrimPrefix t "/" ∉ processedTargets s.
Proof.
  intros HT HE Hbad.
  apply (Extract_inv _ _ _ _ _ HT) in HE
    as [(_ & -> & _)|[(d & _ & -> & _)|(_ & _ & HE)]];
    [split; [done | apply not_elem_of_empty]..|].
  destruct HE as [(? & _ & -> & _)|(layers & s3 & _ & HR & ->)];
    [split; [done | apply not_elem_of_empty]|].
  rewrite run_deferred_events
    by (eapply range_layers_closes_only; [exact HR | apply closes_only_scanning]).
  assert (A : Forall (layer_all (absent (TrimPrefix t "/"))) (rev layers)).
  { apply Forall_forall. intros l _ stream _. apply Forall_forall.
    intros e _. by apply unclean_absent. }
  destruct (range_layers_untouched_all _ _ _ _ _ _ _ A HR) as [Hp Hev];
    [apply not_elem_of_empty|].
  by rewrite Hev.
Qed.

(** The target [./a/b] against a layer whose entry [./a/b] is cleaned to
    [a/b]: nothing is written. *)
Lemma unnormalized_target_never_matches_witness :
  let r := Extract no_export dotted_image (options_for ["./a/b"]) in
  events_about (TrimPrefix "./a/b" "/") (trace (fst r)) = []
  ∧ TrimPrefix "./a/b" "/" ∉ processedTargets (fst r).
Proof.
  apply (unnormalized_target_never_matches no_export dotted_image
           (options_for ["./a/b"]) _
           (snd (Extract no_export dotted_image (options_for ["./a/b"])))
           "./a/b").
  - reflexivity.
  - vm_compute. reflexivity.
  - left. by exists "a/b".
Defined.

(** ** Further facts about the loops *)

Lemma in_image_layers img layers :
  Layers img = Ok layers → Forall (layer_all (in_image img)) (rev layers).
Proof.
  intros HL. apply Forall_forall. intros l Hl%list_elem_of_In%in_rev%list_elem_of_In stream U.
  apply Forall_forall. intros e He. by exists layers, l, stream.
Qed.

Lemma from_image_closes img closes tr :
  forallb is_close closes = true → Forall (from_image img) tr →
  Forall (from_image img) (closes ++ tr).
Proof.
  induction closes as [|ev closes IH]; cbn; [done|].
  intros [Hev Hcl]%andb_true_iff Htr.
  constructor; [by destruct ev | by apply IH].
Qed.

Lemma range_layers_from_image img tw targets ls s s' r :
  Forall (layer_all (in_image img)) ls →
  range_layers tw targets ls s = (s', r) →
  Forall (from_image img) (trace s) → Forall (from_image img) (trace s').
Proof.
  apply (range_layers_lift tw targets (in_image img)
           (λ s s', Forall (from_image img) (trace s)
                    → Forall (from_image img) (trace s'))).
  - done.
  - intros a b c Hab Hbc Ha. by apply Hbc, Hab.
  - intros e s0 s1 r0 He Hl _ _ Hw Htr.
    apply write_entry_effect in Hw as (_ & _ & [-> | ->] & _).
    + constructor; [|done]. by exists e.
    + constructor; [done|]. constructor; [|done]. by exists e.
  - intros s0 H. by constructor.
  - intros i s0 H. by constructor.
  - done.
Qed.

Lemma Extract_from_image export img opts s r :
  Tarball opts = None → Extract export img opts = (s, r) →
  Forall (from_image img) (trace s).
Proof.
  intros HT HE.
  apply (Extract_inv _ _ _ _ _ HT) in HE
    as [(_ & -> & _)|[(d & _ & -> & _)|(_ & _ & HE)]]; [constructor..|].
  destruct HE as [(? & _ & -> & _)|(layers & s3 & HL & HR & ->)];
    [by repeat constructor|].
  unfold run_deferred. cbn [trace]. apply from_image_closes.
  - rewrite forallb_rev.
    by eapply range_layers_closes_only; [exact HR|].
  - eapply range_layers_from_image; [by apply in_image_layers | exact HR|].
    by repeat constructor.
Qed.

Lemma elem_of_written header tr :
  header ∈ written tr ↔ EvWriteHeader header ∈ tr.
Proof.
  unfold written. rewrite list_elem_of_omap. split.
  - intros (ev & Hin & Hev). destruct ev; try done. by injection Hev as ->.
  - intros Hin. by exists (EvWriteHeader header).
Qed.

Lemma wanted_trimmed name targets :
  wanted name targets = true ↔ name ∈ trimmed targets.
Proof.
  unfold wanted, trimmed. rewrite existsb_exists, list_elem_of_fmap.
  split.
  - intros (t & Hin%list_elem_of_In & ->%String.eqb_eq). by exists t.
  - intros (t & -> & Hin%list_elem_of_In). exists t.
    split; [done | apply String.eqb_refl].
Qed.

Lemma run_deferred_processed s :
  processedTargets (run_deferred s) = processedTargets s.
Proof. reflexivity. Qed.

Lemma range_layers_processed_written tw targets ls s s' r :
  range_layers tw targets ls s = (s', r) →
  processed_written s → processed_written s'.
Proof.
  apply (range_layers_lift tw targets (λ _, True)
           (λ s s', processed_written s → processed_written s'));
    [done | intros a b c Hab Hbc Ha; by apply Hbc, Hab | | done | done | done
    | apply layer_all_True].
  intros e s0 s1 r0 _ _ _ _ Hw Hpw p.
  pose proof (write_entry_written _ _ _ _ _ _ Hw) as Hwri.
  apply write_entry_effect in Hw as (Hpr & _ & _ & _).
  rewrite Hpr, Hwri.
  intros [->%elem_of_singleton | Hp]%elem_of_union.
  - eexists. split; [left | done].
  - destruct (Hpw p Hp) as (h & Hh & <-). exists h. split; [by right | done].
Qed.

Lemma first_defining_entry p es :
  existsb (defines p) es = true →
  ∃ pre e post, es = pre ++ e :: post ∧ Forall (absent p) pre
                ∧ defines p e = true.
Proof.
  induction es as [|e es IH]; cbn; [done|].
  destruct (defines p e) eqn:D.
  - intros _. exists [], e, es. by repeat split.
  - intros (pre & e' & post & -> & Hpre & He)%IH.
    exists (e :: pre), e', post. repeat split; [|done]. by constructor.
Qed.

Lemma last_defining_layer p layers :
  existsb (layer_defines p) layers = true →
  ∃ older l newer, layers = older ++ l :: newer
                   ∧ layer_defines p l = true
                   ∧ Forall (λ l', layer_defines p l' = false) newer.
Proof.
  induction layers as [|l layers IH]; cbn; [done|].
  destruct (existsb (layer_defines p) layers) eqn:E.
  - intros _. destruct IH as (older & l' & newer & -> & Hl & Hn); [done|].
    by exists (l :: older), l', newer.
  - rewrite orb_false_r. intros Hl. exists [], l, layers.
    repeat split; [done|].
    apply Forall_forall. intros l' Hin%list_elem_of_In.
    destruct (layer_defines p l') eqn:D; [|done].
    assert (existsb (layer_defines p) layers = true) as X; [|congruence].
    apply existsb_exists. eauto.
Qed.

Lemma archive_ok_run_deferred targets s :
  closes_only s → archive_ok targets s → archive_ok targets (run_deferred s).
Proof.
  intros Hc H. unfold archive_ok.
  by rewrite run_deferred_written, run_deferred_processed.
Qed.

(** The archive invariant and its converse hold when [Extract] returns,
    whatever it returns. *)
Lemma Extract_archive_ok export img opts s r :
  Tarball opts = None → Extract export img opts = (s, r) →
  archive_ok (Targets opts) s ∧ processed_written s.
Proof.
  intros HT HE.
  assert (Hinit : ∀ s0, written (trace s0) = [] → processedTargets s0 = ∅ →
            archive_ok (Targets opts) s0 ∧ processed_written s0).
  { intros s0 Hw Hp. unfold archive_ok, processed_written. rewrite Hw, Hp.
    split; [split; [constructor | by intros ? ?%elem_of_nil]|].
    by intros ? ?%not_elem_of_empty. }
  apply (Extract_inv _ _ _ _ _ HT) in HE
    as [(_ & -> & _)|[(d & _ & -> & _)|(_ & _ & HE)]]; [by apply Hinit..|].
  destruct HE as [(? & _ & -> & _)|(layers & s3 & HL & HR & ->)];
    [by apply Hinit|].
  pose proof (range_layers_closes_only _ _ _ _ _ _ HR closes_only_scanning)
    as Hc.
  split.
  - apply archive_ok_run_deferred; [done|].
    eapply range_layers_archive_ok; [exact HR | apply archive_ok_scanning].
  - unfold processed_written.
    rewrite run_deferred_written, run_deferred_processed by done.
    eapply range_layers_processed_written; [exact HR|].
    by intros p ?%not_elem_of_empty.
Qed.

(** ** Headers and contents go in pairs *)

Lemma run_deferred_archive s :
  closes_only s → archive (trace (run_deferred s)) = archive (trace s).
Proof.
  intros H. unfold run_deferred, archive. cbn [trace].
  rewrite omap_app.
  assert (E : ∀ l, forallb is_close l = true →
              omap (λ ev, match ev with
                          | EvCopy header e => Some (header, content e)
                          | _ => None
                          end) l = []).
  { induction l as [|ev l IH]; simpl; [done|].
    intros [Hev Hl]%andb_true_iff. destruct ev; try done; by apply IH. }
  rewrite E; [done|]. by rewrite forallb_rev.
Qed.






(** ** The calls to the layers *)

Lemma reads_cons_other ev tr : is_read ev = false → reads (ev :: tr) = reads tr.
Proof.
  intros H. unfold reads. rewrite filter_cons_False; [done|]. by rewrite H.
Qed.

Lemma reads_cons_read ev tr :
  is_read ev = true → reads (ev :: tr) = ev :: reads tr.
Proof. intros H. unfold reads. by rewrite filter_cons_True. Qed.

Lemma reads_closes closes tr :
  forallb is_close closes = true → reads (closes ++ tr) = reads tr.
Proof.
  induction closes as [|ev closes IH]; cbn [app forallb]; [done|].
  intros [Hev Hcl]%andb_true_iff.
  rewrite reads_cons_other; [by apply IH | by destruct ev].
Qed.

Lemma visit_entry_reads tw targets e s s' r :
  visit_entry tw targets e s = (s', r) → reads (trace s') = reads (trace s).
Proof.
  rewrite visit_entry_unfold. cbn zeta.
  destruct (_ && _ && _); [|by intros [= <- <-]].
  intros Hw%write_entry_effect. destruct Hw as (_ & _ & [-> | ->] & _);
    by rewrite ?reads_cons_other.
Qed.

Lemma replicate_snoc {A} n (x : A) :
  replicate n x ++ [x] = x :: replicate n x.
Proof. by rewrite <- replicate_cons_app. Qed.

Lemma read_entries_reads tw targets es eof s s' :
  read_entries tw targets es eof s = (s', None) →
  reads (trace s') = replicate (S (length es)) EvNext ++ reads (trace s).
Proof.
  revert s. induction es as [|e es IH]; intros s; cbn [read_entries].
  - destruct eof; [done|]. by intros [= <-].
  - destruct (visit_entry tw targets e (log EvNext s)) as [s1 [err|]] eqn:V;
      [done|].
    intros H. rewrite (IH _ H), (visit_entry_reads _ _ _ _ _ _ V).
    cbn [log trace length]. rewrite reads_cons_read by done.
    change (EvNext :: reads (trace s)) with ([EvNext] ++ reads (trace s)).
    rewrite app_assoc. f_equal.
    change (replicate (S (length es)) EvNext ++ [EvNext])
      with (EvNext :: (replicate (length es) EvNext ++ [EvNext])).
    by rewrite replicate_snoc.
Qed.

Lemma range_layers_reads tw targets ls s s' :
  range_layers tw targets ls s = (s', None) →
  reads (trace s') = rev (drained ls) ++ reads (trace s).
Proof.
  revert s. induction ls as [|l ls IH]; intros s; cbn [range_layers].
  - by intros [= <-].
  - unfold drained; fold drained. unfold stream_length.
    destruct (Uncompressed l) as [stream|]; [|done].
    destruct (read_entries _ _ _ _ _) as [s3 [err|]] eqn:RE; [done|].
    intros H. rewrite (IH _ H), (read_entries_reads _ _ _ _ _ _ RE).
    cbn [defer log trace]. rewrite reads_cons_read by done.
    cbn [rev]. rewrite rev_app_distr, rev_replicate, <- !app_assoc.
    reflexivity.
Qed.

(** ** The deferred closes *)

Lemma fmap_rev {A B} (f : A → B) l : f <$> rev l = rev (f <$> l).
Proof.
  induction l as [|x l IH]; cbn; [done|]. by rewrite fmap_app, IH.
Qed.

Lemma visit_entry_quiet tw targets e s s' r :
  visit_entry tw targets e s = (s', r) →
  deferred s' = deferred s ∧ opened (trace s') = opened (trace s)
  ∧ (forallb (λ ev, negb (is_close ev)) (trace s) = true →
     forallb (λ ev, negb (is_close ev)) (trace s') = true).
Proof.
  rewrite visit_entry_unfold. cbn zeta.
  destruct (_ && _ && _); [|by intros [= <- <-]].
  intros Hw%write_entry_effect. destruct Hw as (_ & -> & [-> | ->] & _);
    by repeat split.
Qed.

Lemma read_entries_quiet tw targets es eof s s' r :
  read_entries tw targets es eof s = (s', r) →
  deferred s' = deferred s ∧ opened (trace s') = opened (trace s)
  ∧ (forallb (λ ev, negb (is_close ev)) (trace s) = true →
     forallb (λ ev, negb (is_close ev)) (trace s') = true).
Proof.
  revert s. induction es as [|e es IH]; intros s; cbn [read_entries].
  - destruct eof; intros [= <- <-]; by repeat split.
  - destruct (visit_entry tw targets e (log EvNext s)) as [s1 r1] eqn:V.
    apply visit_entry_quiet in V as (Hd & Ho & Hc).
    cbn [log deferred trace] in Hd, Ho, Hc.
    change (opened (EvNext :: trace s)) with (opened (trace s)) in Ho.
    change (forallb (λ ev, negb (is_close ev)) (EvNext :: trace s))
      with (forallb (λ ev, negb (is_close ev)) (trace s)) in Hc.
    destruct r1 as [err|].
    + intros [= <- <-]. by repeat split.
    + intros (Hd' & Ho' & Hc')%IH. repeat split; [congruence..|].
      intros H. by apply Hc', Hc.
Qed.

Lemma opened_cons_open i tr : opened (EvUncompressed i :: tr) = i :: opened tr.
Proof. reflexivity. Qed.

Lemma range_layers_closes tw targets layers top ls s s' r :
  rev layers = top ++ ls →
  range_layers tw targets ls s = (s', r) →
  closes_pending layers s → closes_pending layers s'.
Proof.
  revert top s. induction ls as [|l below IH]; intros top s Hrev;
    cbn [range_layers].
  - by intros [= <- <-].
  - pose proof (rev_lookup_suffix _ _ _ _ Hrev) as Hl.
    destruct (Uncompressed l) as [stream|c] eqn:U.
    + destruct (read_entries _ _ _ _ _) as [s3 r3] eqn:RE.
      apply read_entries_quiet in RE as (Hd & Ho & Hc).
      cbn [defer log trace deferred] in Hd, Ho, Hc.
      assert (Hstep : closes_pending layers s → closes_pending layers s3).
      { intros [Hdef Hcl]. split; [|by apply Hc].
        rewrite Hd, Ho, Hdef, opened_cons_open.
        rewrite filter_cons_True; [done|].
        unfold opens. by rewrite Hl, U. }
      destruct r3 as [err|]; [by intros [= <- <-]|].
      intros H Hs. apply (IH (top ++ [l]) s3); [by rewrite <- app_assoc|done|].
      by apply Hstep.
    + intros [= <- <-] [Hdef Hcl]. split; [|done].
      cbn [log trace deferred]. rewrite opened_cons_open.
      rewrite filter_cons_False; [done|].
      unfold opens. by rewrite Hl, U.
Qed.

(** ** The archive as a function of the entries *)

Lemma visit_entry_selected tw targets e s s' rest :
  visit_entry tw targets e s = (s', None) →
  rev (archive (trace s'))
  ++ (archived <$> selected targets (processedTargets s') rest)
  = rev (archive (trace s))
    ++ (archived <$> selected targets (processedTargets s) (e :: rest)).
Proof.
  rewrite visit_entry_unfold. cbn zeta. cbn [selected set_Name Name].
  destruct (_ && _ && _); [|by intros [= <-]].
  intros Hw%write_entry_effect. destruct Hw as (Hpr & _ & _ & Htr).
  rewrite Hpr, Htr by done. cbn [set_Name Name].
  change (archive (EvCopy ?h e :: EvWriteHeader ?h :: trace s))
    with ((h, content e) :: archive (trace s)).
  cbn [rev fmap list_fmap]. by rewrite <- app_assoc.
Qed.

Lemma read_entries_selected tw targets es eof s s' rest :
  read_entries tw targets es eof s = (s', None) →
  rev (archive (trace s'))
  ++ (archived <$> selected targets (processedTargets s') rest)
  = rev (archive (trace s))
    ++ (archived <$> selected targets (processedTargets s) (es ++ rest)).
Proof.
  revert s. induction es as [|e es IH]; intros s; cbn [read_entries].
  - destruct eof; [done|]. by intros [= <-].
  - destruct (visit_entry tw targets e (log EvNext s)) as [s1 [err|]] eqn:V;
      [done|].
    intros H. rewrite (IH _ H).
    by rewrite (visit_entry_selected _ _ _ _ _ (es ++ rest) V).
Qed.

Lemma range_layers_selected tw targets ls s s' rest :
  range_layers tw targets ls s = (s', None) →
  rev (archive (trace s'))
  ++ (archived <$> selected targets (processedTargets s') rest)
  = rev (archive (trace s))
    ++ (archived <$> selected targets (processedTargets s)
                       (scanned ls ++ rest)).
Proof.
  revert s. induction ls as [|l ls IH]; intros s; cbn [range_layers].
  - by intros [= <-].
  - unfold scanned. cbn [fmap list_fmap concat]. unfold stream_entries at 1.
    destruct (Uncompressed l) as [stream|]; [|done].
    destruct (read_entries _ _ _ _ _) as [s3 [err|]] eqn:RE; [done|].
    intros H. rewrite (IH _ H).
    rewrite (read_entries_selected _ _ _ _ _ _ (scanned ls ++ rest) RE).
    by rewrite <- app_assoc.
Qed.

(** The archive of a call that succeeds. *)
Lemma Extract_selected export img opts s layers :
  Tarball opts = None → Extract export img opts = (s, None) →
  Layers img = Ok layers →
  rev (archive (trace s))
  = archived <$> selected (Targets opts) ∅ (scanned (rev layers)).
Proof.
  intros HT HE HL.
  apply (Extract_inv _ _ _ _ _ HT) in HE
    as [(_ & _ & ?)|[(? & _ & _ & ?)|(_ & _ & HE)]]; [done..|].
  destruct HE as [(? & _ & _ & ?)|(layers' & s3 & HL' & HR & ->)]; [done|].
  rewrite HL in HL'. injection HL' as <-.
  pose proof (range_layers_closes_only _ _ _ _ _ _ HR closes_only_scanning)
    as Hc.
  rewrite run_deferred_archive by done.
  pose proof (range_layers_selected _ _ _ _ _ [] HR) as H.
  cbn [selected fmap list_fmap] in H. rewrite !app_nil_r in H. exact H.
Qed.

Lemma scanned_app a b : scanned (a ++ b) = scanned a ++ scanned b.
Proof. unfold scanned. by rewrite fmap_app, concat_app. Qed.

Lemma selected_app targets seen a b :
  ∃ seen', selected targets seen (a ++ b)
           = selected targets seen a ++ selected targets seen' b.
Proof.
  revert seen. induction a as [|e a IH]; intros seen; cbn [app selected].
  - by exists seen.
  - destruct (_ && _ && _).
    + destruct (IH ({[Clean (Name (header_of e))]} ∪ seen)) as (seen' & ->).
      by exists seen'.
    + apply IH.
Qed.

(** ** Further properties of [Extract] *)

(** X1.  Whatever the outcome of the call, every header given to the tar
    writer is the header of an entry of some layer of the image that is
    neither a directory nor of size zero: the name is the cleaned name of
    that entry, type, size and mode are the entry's own. *)
Theorem written_headers_from_live_entries export img opts s r header :
  Tarball opts = None → Extract export img opts = (s, r) →
  header ∈ written (trace s) →
  ∃ e, in_image img e
       ∧ Typeflag (header_of e) ≠ TypeDir ∧ Size (header_of e) ≠ 0%Z
       ∧ Name header = Clean (Name (header_of e))
       ∧ Typeflag header = Typeflag (header_of e)
       ∧ Size header = Size (header_of e)
       ∧ Mode header = Mode (header_of e).
Proof.
  intros HT HE Hin%elem_of_written.
  pose proof (Extract_from_image _ _ _ _ _ HT HE) as Hall.
  rewrite Forall_forall in Hall. apply Hall in Hin as (e & He & Hl & ->).
  exists e. split; [done|].
  unfold live in Hl. apply andb_true_iff in Hl as [Hd Hz].
  apply negb_true_iff in Hd, Hz.
  apply Ascii.eqb_neq in Hd. apply Z.eqb_neq in Hz. by repeat split.
Qed.

Lemma written_headers_from_live_entries_witness :
  ∃ e, in_image two_layers e
       ∧ Typeflag (header_of e) ≠ TypeDir ∧ Size (header_of e) ≠ 0%Z
       ∧ Name (header_of (file "y" "data")) = Clean (Name (header_of e))
       ∧ Typeflag (header_of (file "y" "data")) = Typeflag (header_of e)
       ∧ Size (header_of (file "y" "data")) = Size (header_of e)
       ∧ Mode (header_of (file "y" "data")) = Mode (header_of e).
Proof.
  apply (written_headers_from_live_entries no_export two_layers
           (options_for ["x"; "y"; "z"])
           (fst (Extract no_export two_layers (options_for ["x"; "y"; "z"])))
           None).
  - reflexivity.
  - vm_compute. reflexivity.
  - vm_compute. left.
Defined.



(** X3.  In a call that succeeds, a header named [p] is written exactly
    when [p] is a target with one leading separator stripped and some
    layer of the image has a live entry whose cleaned name is [p]: every
    requested path that exists is extracted, and nothing else is. *)
Theorem written_iff_wanted_and_defined export img opts s layers p :
  Tarball opts = None → Extract export img opts = (s, None) →
  Layers img = Ok layers →
  (∃ header, header ∈ written (trace s) ∧ Name header = p)
  ↔ p ∈ trimmed (Targets opts) ∧ existsb (layer_defines p) layers = true.
Proof.
  intros HT HE HL. split.
  - intros (h & Hh & <-). split.
    + destruct (Extract_archive_ok _ _ _ _ _ HT HE) as [[_ Hall] _].
      apply wanted_trimmed. by destruct (Hall h Hh) as (_ & ? & _).
    + apply elem_of_written in Hh.
      pose proof (Extract_from_image _ _ _ _ _ HT HE) as Hall.
      rewrite Forall_forall in Hall.
      apply Hall in Hh as (e & (ls & l & stream & HL' & Hl & U & He) & Hlive & ->).
      rewrite HL in HL'. injection HL' as <-.
      apply existsb_exists. exists l. split; [by apply list_elem_of_In|].
      unfold layer_defines. rewrite U. apply existsb_exists. exists e.
      split; [by apply list_elem_of_In|].
      unfold defines. rewrite Hlive. apply String.eqb_refl.
  - intros [Hw%wanted_trimmed Hdef].
    apply last_defining_layer in Hdef as (older & l & newer & -> & Hl & Hnewer).
    unfold layer_defines in Hl.
    destruct (Uncompressed l) as [stream|] eqn:U; [|done].
    apply first_defining_entry in Hl as (pre & e & post & E & Hpre & D).
    apply (Extract_inv _ _ _ _ _ HT) in HE
      as [(_ & _ & ?)|[(? & _ & _ & ?)|(_ & _ & HE)]]; [done..|].
    destruct HE as [(? & _ & _ & ?)|(layers' & s3 & HL' & HR & ->)]; [done|].
    rewrite HL in HL'. injection HL' as <-.
    pose proof (range_layers_effective _ _ _ _ _ _ _ _ _ _ _ _ HR U E D Hw
                  Hpre Hnewer (not_elem_of_empty _)) as Hev.
    exists (set_Name (header_of e) p). split; [|done].
    rewrite run_deferred_written
      by (eapply range_layers_closes_only; [exact HR | apply closes_only_scanning]).
    apply elem_of_written.
    assert (Hin : EvWriteHeader (set_Name (header_of e) p)
                  ∈ events_about p (trace s3)).
    { rewrite Hev. right. left. }
    unfold events_about in Hin. by apply list_elem_of_filter in Hin as [_ ?].
Qed.

Lemma written_iff_wanted_and_defined_witness :
  (∃ header,
     header ∈ written (trace (fst (Extract no_export two_layers
                                      (options_for ["x"; "y"; "z"]))))
     ∧ Name header = "z")
  ↔ "z" ∈ trimmed ["x"; "y"; "z"]
    ∧ existsb (layer_defines "z")
        [layer_of [file "x" "old"];
         layer_of [file "x" "new"; file "y" "data"]] = true.
Proof.
  apply (written_iff_wanted_and_defined no_export two_layers
           (options_for ["x"; "y"; "z"])).
  - reflexivity.
  - vm_compute. reflexivity.
  - reflexivity.
Defined.



(** X5.  Two lists of targets without repetition that stand for the same
    names once one leading separator is stripped give the same call: same
    result, same calls in the same order.  Neither the order of the
    targets nor their leading separators matter. *)
Theorem same_names_same_call export img dest ts1 ts2 :
  ts1 ≠ [] → NoDup ts1 → NoDup ts2 →
  (∀ name, name ∈ trimmed ts1 ↔ name ∈ trimmed ts2) →
  Extract export img
          {| Tarball := None; Targets := ts1; Destination := dest |}
  = Extract export img
            {| Tarball := None; Targets := ts2; Destination := dest |}.
Proof.
  intros Hne Hnd1 Hnd2 Hsame.
  assert (Hne2 : ts2 ≠ []).
  { destruct ts1 as [|t ts1]; [done|]. intros ->.
    assert (H : TrimPrefix t "/" ∈ trimmed (t :: ts1)) by left.
    apply Hsame in H. by apply elem_of_nil in H. }
  unfold Extract. cbn [Tarball Targets Destination].
  destruct ts1 as [|t1 ts1]; [done|]. destruct ts2 as [|t2 ts2]; [done|].
  cbn [length Nat.eqb].
  rewrite !NoDup_range_duplicates by done.
  destruct (Layers img) as [layers|]; [|done].
  rewrite (range_layers_ext dest (t1 :: ts1) (t2 :: ts2)); [done|].
  intros name. apply eq_true_iff_eq. rewrite !wanted_trimmed. apply Hsame.
Qed.

Lemma same_names_same_call_witness :
  Extract no_export two_layers
          {| Tarball := None; Targets := ["x"; "/y"];
             Destination := accepting |}
  = Extract no_export two_layers
            {| Tarball := None; Targets := ["y"; "/x"];
               Destination := accepting |}.
Proof.
  apply (same_names_same_call no_export two_layers accepting
           ["x"; "/y"] ["y"; "/x"]).
  - discriminate.
  - refine (bool_decide_unpack _ _). vm_compute. exact I.
  - refine (bool_decide_unpack _ _). vm_compute. exact I.
  - intros name.
    change (trimmed ["x"; "/y"]) with ["x"; "y"].
    change (trimmed ["y"; "/x"]) with ["y"; "x"].
    rewrite !elem_of_cons. tauto.
Defined.

(** X6.  In a call that succeeds, every layer of the image is opened once,
    from the last to the first, and each stream is read to its end: one
    call to [tarReader.Next] per entry and one that returns [io.EOF].
    Nothing stops the scan early, whether or not all targets are found. *)
Theorem every_layer_drained export img opts s layers :
  Tarball opts = None → Extract export img opts = (s, None) →
  Layers img = Ok layers →
  rev (reads (trace s)) = drained (rev layers).
Proof.
  intros HT HE HL.
  apply (Extract_inv _ _ _ _ _ HT) in HE
    as [(_ & _ & ?)|[(? & _ & _ & ?)|(_ & _ & HE)]]; [done..|].
  destruct HE as [(? & _ & _ & ?)|(layers' & s3 & HL' & HR & ->)]; [done|].
  rewrite HL in HL'. injection HL' as <-.
  pose proof (range_layers_closes_only _ _ _ _ _ _ HR closes_only_scanning)
    as Hc.
  unfold run_deferred. cbn [trace].
  rewrite reads_closes by by rewrite forallb_rev.
  rewrite (range_layers_reads _ _ _ _ _ HR).
  change (reads (trace scanning)) with (@nil Event).
  by rewrite app_nil_r, rev_involutive.
Qed.

Lemma every_layer_drained_witness :
  rev (reads (trace (fst (Extract no_export two_layers (options_for ["x"])))))
  = drained (rev [layer_of [file "x" "old"];
                  layer_of [file "x" "new"; file "y" "data"]]).
Proof.
  apply (every_layer_drained no_export two_layers (options_for ["x"])).
  - reflexivity.
  - vm_compute. reflexivity.
  - reflexivity.
Defined.

(** X7.  Once [img.Layers] has succeeded, however the call ends: the calls
    made end with the closes of the readers of exactly the layers that
    opened, the layer opened last closed first, then the close of the tar
    writer, then that of the gzip writer; and no close comes before the
    last call to a layer or to the tar writer. *)
Theorem closes_on_every_path export img opts layers s r :
  Tarball opts = None → Targets opts ≠ [] → NoDup (Targets opts) →
  Layers img = Ok layers →
  Extract export img opts = (s, r) →
  ∃ body,
    trace s
    = EvCloseGzip :: EvCloseTar
      :: (EvCloseLayer
            <$> rev (filter (λ i, opens layers i = true) (opened body)))
      ++ body
    ∧ forallb (λ ev, negb (is_close ev)) body = true.
Proof.
  intros HT Hne Hnd HL HE.
  apply (Extract_inv _ _ _ _ _ HT) in HE
    as [(? & _)|[(d & D & _)|(_ & _ & HE)]]; [done| |].
  { by rewrite NoDup_range_duplicates in D. }
  destruct HE as [(? & ? & _)|(layers' & s3 & HL' & HR & ->)]; [congruence|].
  rewrite HL in HL'. injection HL' as <-.
  apply (range_layers_closes _ _ layers []) in HR as [Hdef Hcl]; [|done|done].
  exists (trace s3). split; [|done].
  unfold run_deferred. cbn [trace]. rewrite Hdef.
  rewrite rev_app_distr, fmap_rev. reflexivity.
Qed.

Lemma closes_on_every_path_witness :
  ∃ body,
    trace (fst (Extract no_export broken_bottom (options_for ["x"])))
    = EvCloseGzip :: EvCloseTar
      :: (EvCloseLayer
            <$> rev (filter (λ i, opens [failing_layer "unexpected EOF";
                                         layer_of []] i = true)
                            (opened body)))
      ++ body
    ∧ forallb (λ ev, negb (is_close ev)) body = true.
Proof.
  apply (closes_on_every_path no_export broken_bottom (options_for ["x"])
           [failing_layer "unexpected EOF"; layer_of []] _
           (snd (Extract no_export broken_bottom (options_for ["x"])))).
  - reflexivity.
  - discriminate.
  - refine (bool_decide_unpack _ _). vm_compute. exact I.
  - reflexivity.
  - vm_compute. reflexivity.
Defined.

(** X8.  With at least one target, no target repeated, layers that all
    open and can be read to [io.EOF], and a writer that accepts every
    call, [Extract] returns no error, whether or not the targets are
    found. *)
Theorem healthy_call_succeeds export img opts layers :
  Tarball opts = None → Targets opts ≠ [] → NoDup (Targets opts) →
  Layers img = Ok layers → forallb healthy_layer layers = true →
  healthy_writer (Destination opts) →
  snd (Extract export img opts) = None.
Proof.
  intros HT Hne Hnd HL Hh Hw.
  destruct (Extract export img opts) as [s r] eqn:HE. cbn [snd].
  apply (Extract_inv _ _ _ _ _ HT) in HE
    as [(? & _)|[(d & D & _)|(_ & _ & HE)]]; [done| |].
  { by rewrite NoDup_range_duplicates in D. }
  destruct HE as [(? & ? & _)|(layers' & s3 & HL' & HR & ->)]; [congruence|].
  rewrite HL in HL'. injection HL' as <-.
  pose proof (range_layers_healthy (Destination opts) (Targets opts)
                (rev layers) scanning Hw) as Hr.
  rewrite forallb_rev, HR in Hr. by apply Hr.
Qed.

Lemma healthy_call_succeeds_witness :
  snd (Extract no_export dotted_image (options_for ["nothing"; "/a/b"])) = None.
Proof.
  apply (healthy_call_succeeds no_export dotted_image
           (options_for ["nothing"; "/a/b"]) [layer_of [file "./a/b" "tool"]]).
  - reflexivity.
  - discriminate.
  - refine (bool_decide_unpack _ _). vm_compute. exact I.
  - reflexivity.
  - vm_compute. reflexivity.
  - apply healthy_accepting.
Defined.

(** X9.  In a call that succeeds, the archive holds, in this order, the
    entries met when the layers are read from the last to the first and
    each in stream order, that are live, have the name of a target once
    cleaned, and are the first met with that name; each with its cleaned
    header and its content.  The order is that of the layers, not that of
    the targets. *)
Theorem archive_is_first_occurrences export img opts s layers :
  Tarball opts = None → Extract export img opts = (s, None) →
  Layers img = Ok layers →
  rev (archive (trace s))
  = archived <$> selected (Targets opts) ∅ (scanned (rev layers)).
Proof.
  intros HT HE HL.
  apply (Extract_inv _ _ _ _ _ HT) in HE
    as [(_ & _ & ?)|[(? & _ & _ & ?)|(_ & _ & HE)]]; [done..|].
  destruct HE as [(? & _ & _ & ?)|(layers' & s3 & HL' & HR & ->)]; [done|].
  rewrite HL in HL'. injection HL' as <-.
  rewrite run_deferred_archive
    by (eapply range_layers_closes_only; [exact HR | apply closes_only_scanning]).
  pose proof (range_layers_selected _ _ _ _ _ [] HR) as H.
  cbn [selected fmap list_fmap] in H. rewrite !app_nil_r in H. exact H.
Qed.

Lemma archive_is_first_occurrences_witness :
  rev (archive (trace (fst (Extract no_export two_layers
                              (options_for ["y"; "x"; "z"])))))
  = archived <$> selected ["y"; "x"; "z"] ∅
                   (scanned (rev [layer_of [file "x" "old"];
                                  layer_of [file "x" "new"; file "y" "data"]])).
Proof.
  apply (archive_is_first_occurrences no_export two_layers
           (options_for ["y"; "x"; "z"])).
  - reflexivity.
  - vm_compute. reflexivity.
  - reflexivity.
Defined.

(** X10.  Layers placed beneath an image only add to the end of the
    archive: when the calls on the image and on the image with older
    layers beneath both succeed, for the same targets, what the first
    writes is the beginning of what the second writes.  A lower layer
    never changes nor displaces what comes from the layers above it. *)
Theorem lower_layers_only_append export img img' opts s s' older layers :
  Tarball opts = None →
  Layers img = Ok layers → Layers img' = Ok (older ++ layers) →
  Extract export img opts = (s, None) →
  Extract export img' opts = (s', None) →
  ∃ more, rev (archive (trace s')) = rev (archive (trace s)) ++ more.
Proof.
  intros HT HL HL' HE HE'.
  rewrite (Extract_selected _ _ _ _ _ HT HE HL).
  rewrite (Extract_selected _ _ _ _ _ HT HE' HL').
  rewrite rev_app_distr, scanned_app.
  destruct (selected_app (Targets opts) ∅ (scanned (rev layers))
              (scanned (rev older))) as (seen' & ->).
  rewrite fmap_app. by eexists.
Qed.

Lemma lower_layers_only_append_witness :
  ∃ more,
    rev (archive (trace (fst (Extract no_export two_layers
                                (options_for ["x"; "y"])))))
    = rev (archive (trace (fst (Extract no_export
                                  {| Layers := Ok [layer_of [file "x" "new";
                                                             file "y" "data"]] |}
                                  (options_for ["x"; "y"])))))
      ++ more.
Proof.
  apply (lower_layers_only_append no_export
           {| Layers := Ok [layer_of [file "x" "new"; file "y" "data"]] |}
           two_layers (options_for ["x"; "y"]) _ _
           [layer_of [file "x" "old"]]
           [layer_of [file "x" "new"; file "y" "data"]]).
  - reflexivity.
  - reflexivity.
  - reflexivity.
  - vm_compute. reflexivity.
  - vm_compute. reflexivity.
Defined.
